(** * A model of the circle_payment_service client ([src/api.rs])

    The Rust crate is a thin asynchronous HTTP client.  Its operations are
    modelled sequentially in a world-passing monad: the world holds the
    operating-system entropy stream read by [rand::thread_rng], the scripted
    answers of the remote service, and a log of the observable effects
    (RSA encryptions and HTTP requests).

    Byte strings are [list Z] (each element an [u8] value in [0, 256));
    Rust [&str]/[String] values are [string] (one [ascii] per UTF-8 byte). *)

From Stdlib Require Import ZArith String Ascii List Bool Lia.
Set Warnings "-register-all".
Import ListNotations.
Open Scope string_scope.
Open Scope list_scope.
Open Scope Z_scope.

(** Rust's [Result]. *)
Inductive result (E A : Type) : Type :=
| Ok (a : A)
| Err (e : E).
Arguments Ok {E A} a.
Arguments Err {E A} e.

Definition r_bind {E A B} (r : result E A) (f : A -> result E B) : result E B :=
  match r with Ok a => f a | Err e => Err e end.

Notation "'let?' x := r 'in' k" := (r_bind r (fun x => k))
  (at level 200, x name, r at level 100, k at level 200).

(** ** Bytes and characters *)

Definition byte_of_ascii (c : ascii) : Z := Z.of_nat (nat_of_ascii c).
Definition ascii_of_byte (b : Z) : ascii := ascii_of_nat (Z.to_nat b).

Definition bytes_of_string (s : string) : list Z :=
  map byte_of_ascii (list_ascii_of_string s).
Definition string_of_bytes (l : list Z) : string :=
  string_of_list_ascii (map ascii_of_byte l).

Definition is_byte (b : Z) : Prop := 0 <= b < 256.
Definition bytes_ok (l : list Z) : Prop := Forall is_byte l.

(** [u8] exclusive or. *)
Definition xor8 (a b : Z) : Z := Z.land (Z.lxor a b) 255.

(** ** The [hex] crate: [hex::decode] *)

Inductive FromHexError : Type :=
| InvalidHexCharacter (c : ascii) (index : nat)
| OddLength
| InvalidStringLength.

(** [fn val(c: u8, idx: usize) -> Result<u8, FromHexError>] *)
Definition hex_val (c : ascii) (idx : nat) : result FromHexError Z :=
  let n := byte_of_ascii c in
  if (65 <=? n) && (n <=? 70) then Ok (n - 65 + 10)
  else if (97 <=? n) && (n <=? 102) then Ok (n - 97 + 10)
  else if (48 <=? n) && (n <=? 57) then Ok (n - 48)
  else Err (InvalidHexCharacter c idx).

(** [hex.chunks(2).enumerate().map(|(i, pair)|
       Ok(val(pair[0], 2 * i)? << 4 | val(pair[1], 2 * i + 1)?)).collect()] *)
Fixpoint hex_pairs (s : string) (i : nat) : result FromHexError (list Z) :=
  match s with
  | String a (String b rest) =>
      let? hi := hex_val a (2 * i) in
      let? lo := hex_val b (2 * i + 1) in
      let? tl := hex_pairs rest (S i) in
      Ok (Z.lor (Z.shiftl hi 4) lo :: tl)
  | _ => Ok []
  end.

(** [FromHex for Vec<u8>]: the odd-length check comes first. *)
Definition hex_decode (s : string) : result FromHexError (list Z) :=
  if Nat.odd (String.length s) then Err OddLength else hex_pairs s 0.

Definition is_hex_digit (c : ascii) : bool :=
  let n := byte_of_ascii c in
  ((65 <=? n) && (n <=? 70)) || ((97 <=? n) && (n <=? 102))
  || ((48 <=? n) && (n <=? 57)).

(** A string is valid hex when it has even length and only hex digits. *)
Definition valid_hex (s : string) : bool :=
  Nat.even (String.length s) && forallb is_hex_digit (list_ascii_of_string s).

(** ** The [base64] crate: [base64::encode] (standard alphabet, padded) *)

Definition b64_char (v : Z) : ascii :=
  if v <? 26 then ascii_of_byte (65 + v)
  else if v <? 52 then ascii_of_byte (97 + (v - 26))
  else if v <? 62 then ascii_of_byte (48 + (v - 52))
  else if v =? 62 then "+"%char else "/"%char.

Definition pad_char : ascii := "="%char.

Fixpoint base64_encode (l : list Z) : string :=
  match l with
  | a :: b :: c :: rest =>
      String (b64_char (Z.shiftr a 2))
        (String (b64_char (Z.lor (Z.shiftl (Z.land a 3) 4) (Z.shiftr b 4)))
          (String (b64_char (Z.lor (Z.shiftl (Z.land b 15) 2) (Z.shiftr c 6)))
            (String (b64_char (Z.land c 63)) (base64_encode rest))))
  | [a; b] =>
      String (b64_char (Z.shiftr a 2))
        (String (b64_char (Z.lor (Z.shiftl (Z.land a 3) 4) (Z.shiftr b 4)))
          (String (b64_char (Z.shiftl (Z.land b 15) 2)) (String pad_char EmptyString)))
  | [a] =>
      String (b64_char (Z.shiftr a 2))
        (String (b64_char (Z.shiftl (Z.land a 3) 4))
          (String pad_char (String pad_char EmptyString)))
  | [] => EmptyString
  end.

(** Standard base64 decoding, used to state what the encoder's output
    decodes to. *)
Definition b64_val (c : ascii) : option Z :=
  let n := byte_of_ascii c in
  if (65 <=? n) && (n <=? 90) then Some (n - 65)
  else if (97 <=? n) && (n <=? 122) then Some (n - 97 + 26)
  else if (48 <=? n) && (n <=? 57) then Some (n - 48 + 52)
  else if n =? 43 then Some 62
  else if n =? 47 then Some 63
  else None.

Fixpoint base64_decode (s : string) : option (list Z) :=
  match s with
  | EmptyString => Some []
  | String c1 (String c2 (String c3 (String c4 rest))) =>
      match b64_val c1, b64_val c2 with
      | Some v1, Some v2 =>
          let b0 := Z.lor (Z.shiftl v1 2) (Z.shiftr v2 4) in
          if (ascii_dec c3 pad_char) then
            if (ascii_dec c4 pad_char) then
              match rest with EmptyString => Some [b0] | _ => None end
            else None
          else
            match b64_val c3 with
            | None => None
            | Some v3 =>
                let b1 := Z.land (Z.lor (Z.shiftl v2 4) (Z.shiftr v3 2)) 255 in
                if ascii_dec c4 pad_char then
                  match rest with EmptyString => Some [b0; b1] | _ => None end
                else
                  match b64_val c4 with
                  | None => None
                  | Some v4 =>
                      let b2 := Z.land (Z.lor (Z.shiftl v3 6) v4) 255 in
                      match base64_decode rest with
                      | Some tl => Some (Z.land b0 255 :: b1 :: b2 :: tl)
                      | None => None
                      end
                  end
            end
      | _, _ => None
      end
  | _ => None
  end.

(** ** SHA-256 (FIPS 180-4), the digest of [Oaep::new::<Sha256>()] *)

Module Sha256.

Definition mask32 (x : Z) : Z := Z.land x (2 ^ 32 - 1).
Definition add32 (a b : Z) : Z := mask32 (a + b).
Definition rotr (x : Z) (n : Z) : Z :=
  mask32 (Z.lor (Z.shiftr x n) (Z.shiftl x (32 - n))).
Definition not32 (x : Z) : Z := Z.lxor x (2 ^ 32 - 1).

Definition ch (x y z : Z) : Z := Z.lxor (Z.land x y) (Z.land (not32 x) z).
Definition maj (x y z : Z) : Z := Z.lxor (Z.lxor (Z.land x y) (Z.land x z)) (Z.land y z).
Definition bsig0 (x : Z) : Z := Z.lxor (Z.lxor (rotr x 2) (rotr x 13)) (rotr x 22).
Definition bsig1 (x : Z) : Z := Z.lxor (Z.lxor (rotr x 6) (rotr x 11)) (rotr x 25).
Definition ssig0 (x : Z) : Z := Z.lxor (Z.lxor (rotr x 7) (rotr x 18)) (Z.shiftr x 3).
Definition ssig1 (x : Z) : Z := Z.lxor (Z.lxor (rotr x 17) (rotr x 19)) (Z.shiftr x 10).

(** The round constants, in decimal. *)
Definition K : list Z :=
  [1116352408; 1899447441; 3049323471; 3921009573; 961987163; 1508970993;
   2453635748; 2870763221; 3624381080; 310598401; 607225278; 1426881987;
   1925078388; 2162078206; 2614888103; 3248222580; 3835390401; 4022224774;
   264347078; 604807628; 770255983; 1249150122; 1555081692; 1996064986;
   2554220882; 2821834349; 2952996808; 3210313671; 3336571891; 3584528711;
   113926993; 338241895; 666307205; 773529912; 1294757372; 1396182291;
   1695183700; 1986661051; 2177026350; 2456956037; 2730485921; 2820302411;
   3259730800; 3345764771; 3516065817; 3600352804; 4094571909; 275423344;
   430227734; 506948616; 659060556; 883997877; 958139571; 1322822218;
   1537002063; 1747873779; 1955562222; 2024104815; 2227730452; 2361852424;
   2428436474; 2756734187; 3204031479; 3329325298].

Definition H0 : list Z :=
  [0x6a09e667; 0xbb67ae85; 0x3c6ef372; 0xa54ff53a; 0x510e527f; 0x9b05688c; 0x1f83d9ab; 0x5be0cd19].

Definition word_be (b0 b1 b2 b3 : Z) : Z :=
  Z.lor (Z.shiftl b0 24) (Z.lor (Z.shiftl b1 16) (Z.lor (Z.shiftl b2 8) b3)).

Fixpoint words_of_bytes (l : list Z) : list Z :=
  match l with
  | b0 :: b1 :: b2 :: b3 :: rest => word_be b0 b1 b2 b3 :: words_of_bytes rest
  | _ => []
  end.

Definition bytes_of_word (w : Z) : list Z :=
  [Z.land (Z.shiftr w 24) 255; Z.land (Z.shiftr w 16) 255;
   Z.land (Z.shiftr w 8) 255; Z.land w 255].

(** The message schedule W_0 .. W_63, built from the 16 block words. *)
Fixpoint schedule (n : nat) (w : list Z) : list Z :=
  match n with
  | O => w
  | S n' =>
      let t := length w in
      let wt := add32 (add32 (ssig1 (nth (t - 2) w 0)) (nth (t - 7) w 0))
                      (add32 (ssig0 (nth (t - 15) w 0)) (nth (t - 16) w 0)) in
      schedule n' (w ++ [wt])
  end.

Definition round (st : list Z) (kw : Z * Z) : list Z :=
  match st with
  | [a; b; c; d; e; f; g; h] =>
      let t1 := add32 (add32 (add32 h (bsig1 e)) (add32 (ch e f g) (fst kw))) (snd kw) in
      let t2 := add32 (bsig0 a) (maj a b c) in
      [add32 t1 t2; a; b; c; add32 d t1; e; f; g]
  | _ => st
  end.

Definition compress (hv : list Z) (block : list Z) : list Z :=
  let w := schedule 48 (words_of_bytes block) in
  let st := fold_left round (combine K w) hv in
  map (fun p => add32 (fst p) (snd p)) (combine hv st).

Fixpoint process (n : nat) (hv : list Z) (m : list Z) : list Z :=
  match n with
  | O => hv
  | S n' => process n' (compress hv (firstn 64 m)) (skipn 64 m)
  end.

Definition pad (m : list Z) : list Z :=
  let l := Z.of_nat (length m) in
  let zeros := Z.to_nat ((55 - l) mod 64) in
  m ++ [128] ++ repeat 0 zeros ++
    flat_map bytes_of_word [Z.land (Z.shiftr (8 * l) 32) (2 ^ 32 - 1); mask32 (8 * l)].

Definition sha256 (m : list Z) : list Z :=
  let p := pad m in
  flat_map bytes_of_word (process (length p / 64) H0 p).

End Sha256.

(** ** The [rsa] crate (0.9): RSAES-OAEP encryption with SHA-256

    [RsaPublicKey::encrypt] with [Oaep::new::<Sha256>()] runs
    [key::check_public] (which every key the client holds has already passed
    in [RsaPublicKey::new] while being parsed, so it is not repeated here),
    [oaep_encrypt] (length check, seed from the RNG, masking with MGF1), the
    raw RSA map [m^e mod n], and [uint_to_be_pad]. *)

Record RsaPublicKey : Type := mkRsaPublicKey { key_n : Z; key_e : Z }.

(** A subset of [rsa::errors::Error]. *)
Inductive RsaError : Type :=
| MessageTooLong
| LabelTooLong
| InvalidModulus
| PublicExponentTooSmall
| PublicExponentTooLarge
| ModulusTooLarge
| Internal.

Definition h_size : nat := 32%nat.

Definition bits (n : Z) : Z := if n =? 0 then 0 else Z.log2 n + 1.

(** [PublicKeyParts::size]: the modulus length in bytes. *)
Definition key_size (key : RsaPublicKey) : nat := Z.to_nat ((bits (key_n key) + 7) / 8).

(** [inc_counter] run [i] times from zero: the 4-byte big-endian counter. *)
Definition counter (i : nat) : list Z := Sha256.bytes_of_word (Z.of_nat i).

Fixpoint mgf1_stream (seed : list Z) (i : nat) (blocks : nat) : list Z :=
  match blocks with
  | O => []
  | S b => Sha256.sha256 (seed ++ counter i) ++ mgf1_stream seed (S i) b
  end.

(** [mgf1_xor(out, digest, seed)]: [out] is xored, byte by byte, with the
    digests of [seed || counter] for counter 0, 1, ... *)
Definition mgf1_xor (out seed : list Z) : list Z :=
  let mask := mgf1_stream seed 0 ((length out + h_size - 1) / h_size) in
  map (fun p => xor8 (fst p) (snd p)) (combine out mask).

(** [encrypt_internal] once the seed has been drawn: the encoded message
    [EM = 0x00 || maskedSeed || maskedDB]. *)
Definition oaep_encode (msg seed : list Z) (k : nat) : list Z :=
  let p_hash := Sha256.sha256 [] in
  let db_len := (k - h_size - 1)%nat in
  let db := p_hash ++ repeat 0 (db_len - length msg - 1 - h_size) ++ [1] ++ msg in
  let masked_db := mgf1_xor db seed in
  let masked_seed := mgf1_xor seed masked_db in
  0 :: masked_seed ++ masked_db.

(** [BigUint::from_bytes_be] *)
Definition os2ip (l : list Z) : Z := fold_left (fun acc b => acc * 256 + b) l 0.

(** [BigUint::modpow] by square and multiply. *)
Fixpoint pow_mod_pos (b : Z) (p : positive) (n : Z) : Z :=
  match p with
  | xH => b mod n
  | xO p' => let r := pow_mod_pos b p' n in (r * r) mod n
  | xI p' => let r := pow_mod_pos b p' n in (r * r * b) mod n
  end.

Definition modpow (b e n : Z) : Z :=
  match e with
  | Z0 => 1 mod n
  | Zpos p => pow_mod_pos b p n
  | Zneg _ => 0
  end.

(** [rsa_encrypt]: the raw RSA map. *)
Definition rsa_encrypt_raw (key : RsaPublicKey) (m : Z) : Z :=
  modpow m (key_e key) (key_n key).

(** Big-endian representation of [c] on exactly [k] bytes. *)
Fixpoint be_bytes (k : nat) (c : Z) : list Z :=
  match k with
  | O => []
  | S k' => be_bytes k' (c / 256) ++ [c mod 256]
  end.

(** [uint_to_be_pad]: [to_bytes_be] has [max 1 (byte length)] bytes. *)
Definition uint_to_be_pad (c : Z) (k : nat) : result RsaError (list Z) :=
  let blen := if c =? 0 then 1 else (bits c + 7) / 8 in
  if Z.of_nat k <? blen then Err Internal else Ok (be_bytes k c).

(** The ciphertext computed once the seed is known. *)
Definition oaep_ciphertext (key : RsaPublicKey) (msg seed : list Z) : result RsaError (list Z) :=
  let k := key_size key in
  uint_to_be_pad (rsa_encrypt_raw key (os2ip (oaep_encode msg seed k))) k.

(** The length check of [encrypt_internal], done before the RNG is used. *)
Definition oaep_fits (key : RsaPublicKey) (msg : list Z) : bool :=
  (length msg + 2 * h_size + 2 <=? key_size key)%nat.

(** ** [serde_json]: the JSON text format *)

Module Json.

Inductive json : Type :=
| JNull
| JBool (b : bool)
| JNumber (lexeme : string)
| JString (s : string)
| JArray (items : list json)
| JObject (entries : list (string * json)).

(** [serde_json::Error] codes, and the [serde::de::Error] messages raised by
    derived [Deserialize] impls. *)
Inductive serde_error : Type :=
| EofWhileParsingValue
| EofWhileParsingString
| EofWhileParsingObject
| EofWhileParsingList
| ExpectedColon
| ExpectedListCommaOrEnd
| ExpectedObjectCommaOrEnd
| ExpectedSomeIdent
| ExpectedSomeValue
| InvalidEscape
| InvalidNumber
| KeyMustBeAString
| LoneLeadingSurrogateInHexEscape
| UnexpectedEndOfHexEscape
| ControlCharacterWhileParsingString
| TrailingCharacters
| TrailingComma
| RecursionLimitExceeded
| MissingField (name : string)
| DuplicateField (name : string)
| InvalidType (expected : string)
| InvalidValue (expected : string)
| InvalidLength (len : nat).

Definition dq : ascii := ascii_of_nat 34.
Definition bslash : ascii := ascii_of_nat 92.

Definition is_ws (c : ascii) : bool :=
  let n := byte_of_ascii c in (n =? 32) || (n =? 10) || (n =? 13) || (n =? 9).

Fixpoint skip_ws (s : string) : string :=
  match s with
  | String c r => if is_ws c then skip_ws r else s
  | EmptyString => EmptyString
  end.

Definition ceq (c : ascii) (n : Z) : bool := byte_of_ascii c =? n.

Definition hex4 (a b c d : ascii) : option Z :=
  match hex_val a 0, hex_val b 0, hex_val c 0, hex_val d 0 with
  | Ok x, Ok y, Ok z, Ok w => Some (x * 4096 + y * 256 + z * 16 + w)
  | _, _, _, _ => None
  end.

(** UTF-8 encoding of a code point (as [char::encode_utf8]). *)
Definition utf8_encode (cp : Z) : string :=
  string_of_bytes
    (if cp <? 128 then [cp]
     else if cp <? 2048 then [192 + Z.shiftr cp 6; 128 + Z.land cp 63]
     else if cp <? 65536 then
       [224 + Z.shiftr cp 12; 128 + Z.land (Z.shiftr cp 6) 63; 128 + Z.land cp 63]
     else [240 + Z.shiftr cp 18; 128 + Z.land (Z.shiftr cp 12) 63;
           128 + Z.land (Z.shiftr cp 6) 63; 128 + Z.land cp 63]).

Definition simple_escape (e : ascii) : option ascii :=
  let n := byte_of_ascii e in
  if n =? 34 then Some dq
  else if n =? 92 then Some bslash
  else if n =? 47 then Some "/"%char
  else if n =? 98 then Some (ascii_of_nat 8)
  else if n =? 102 then Some (ascii_of_nat 12)
  else if n =? 110 then Some (ascii_of_nat 10)
  else if n =? 114 then Some (ascii_of_nat 13)
  else if n =? 116 then Some (ascii_of_nat 9)
  else None.

Definition prepend (p : string) (r : result serde_error (string * string))
  : result serde_error (string * string) :=
  match r with Ok (s, rest) => Ok (p ++ s, rest)%string | Err e => Err e end.

(** [Deserializer::parse_str]: the body of a string literal after its
    opening quote; returns the decoded contents and the remaining input. *)
Fixpoint lex_string (s : string) : result serde_error (string * string) :=
  match s with
  | EmptyString => Err EofWhileParsingString
  | String c r =>
      if ceq c 34 then Ok (EmptyString, r)
      else if ceq c 92 then
        match r with
        | EmptyString => Err EofWhileParsingString
        | String e r1 =>
            if ceq e 117 then
              match r1 with
              | String h1 (String h2 (String h3 (String h4 r2))) =>
                  match hex4 h1 h2 h3 h4 with
                  | None => Err InvalidEscape
                  | Some n =>
                      if (56320 <=? n) && (n <=? 57343) then Err LoneLeadingSurrogateInHexEscape
                      else if (55296 <=? n) && (n <=? 56319) then
                        match r2 with
                        | String b1 (String u1 (String g1 (String g2 (String g3 (String g4 r3))))) =>
                            if ceq b1 92 && ceq u1 117 then
                              match hex4 g1 g2 g3 g4 with
                              | Some n2 =>
                                  if (56320 <=? n2) && (n2 <=? 57343) then
                                    prepend (utf8_encode (65536 + Z.shiftl (n - 55296) 10 + (n2 - 56320)))
                                      (lex_string r3)
                                  else Err LoneLeadingSurrogateInHexEscape
                              | None => Err InvalidEscape
                              end
                            else Err UnexpectedEndOfHexEscape
                        | _ => Err EofWhileParsingString
                        end
                      else prepend (utf8_encode n) (lex_string r2)
                  end
              | _ => Err EofWhileParsingString
              end
            else
              match simple_escape e with
              | Some c' => prepend (String c' EmptyString) (lex_string r1)
              | None => Err InvalidEscape
              end
        end
      else if byte_of_ascii c <? 32 then Err ControlCharacterWhileParsingString
      else prepend (String c EmptyString) (lex_string r)
  end.

Definition is_digit (c : ascii) : bool := (48 <=? byte_of_ascii c) && (byte_of_ascii c <=? 57).

Fixpoint span_digits (s : string) : string * string :=
  match s with
  | String c r =>
      if is_digit c then let (d, rest) := span_digits r in (String c d, rest) else (EmptyString, s)
  | EmptyString => (EmptyString, EmptyString)
  end.

(** The exponent part [([eE][+-]?[0-9]+)?]. *)
Definition lex_exponent (s : string) : result serde_error (string * string) :=
  match s with
  | String e r =>
      if ceq e 101 || ceq e 69 then
        let (sign, r1) :=
          match r with
          | String c r' => if ceq c 43 || ceq c 45 then (String c EmptyString, r') else (EmptyString, r)
          | EmptyString => (EmptyString, r)
          end in
        let (ds, r2) := span_digits r1 in
        if String.eqb ds EmptyString then Err InvalidNumber
        else Ok (String e (sign ++ ds), r2)%string
      else Ok (EmptyString, s)
  | EmptyString => Ok (EmptyString, s)
  end.

(** The fraction and exponent after the integer part. *)
Definition lex_frac_exp (s : string) : result serde_error (string * string) :=
  match s with
  | String c r =>
      if ceq c 46 then
        let (ds, r1) := span_digits r in
        if String.eqb ds EmptyString then Err InvalidNumber
        else prepend (String c ds) (lex_exponent r1)
      else lex_exponent s
  | EmptyString => Ok (EmptyString, s)
  end.

(** A JSON number: optional minus, an integer part ([0] or a non-zero digit
    followed by digits), optional fraction, optional exponent; a digit right
    after a leading [0] is left to the caller, where it is an error. *)
Definition lex_number (s : string) : result serde_error (string * string) :=
  let (minus, s1) :=
    match s with
    | String c r => if ceq c 45 then (String c EmptyString, r) else (EmptyString, s)
    | EmptyString => (EmptyString, s)
    end in
  match s1 with
  | String d r =>
      if ceq d 48 then prepend (minus ++ String d EmptyString)%string (lex_frac_exp r)
      else if is_digit d then
        let (ds, r1) := span_digits r in
        prepend (minus ++ String d ds)%string (lex_frac_exp r1)
      else Err InvalidNumber
  | EmptyString => Err EofWhileParsingValue
  end.

Fixpoint strip_prefix (p s : string) : option string :=
  match p, s with
  | EmptyString, _ => Some s
  | String a p', String b s' => if ascii_dec a b then strip_prefix p' s' else None
  | String _ _, EmptyString => None
  end.

(** [Deserializer::parse_value] and its object and array loops, driven by
    a fuel bound (each call consumes at least one input character). *)
Fixpoint parse_value (fuel : nat) (s : string) {struct fuel}
  : result serde_error (json * string) :=
  match fuel with
  | O => Err RecursionLimitExceeded
  | S f =>
      match skip_ws s with
      | EmptyString => Err EofWhileParsingValue
      | String c r as s1 =>
          if ceq c 34 then
            match lex_string r with
            | Ok (str, rest) => Ok (JString str, rest)
            | Err e => Err e
            end
          else if ceq c 123 then
            match skip_ws r with
            | EmptyString => Err EofWhileParsingObject
            | String c2 r2 as s2 =>
                if ceq c2 125 then Ok (JObject [], r2) else parse_members f s2 []
            end
          else if ceq c 91 then
            match skip_ws r with
            | EmptyString => Err EofWhileParsingList
            | String c2 r2 as s2 =>
                if ceq c2 93 then Ok (JArray [], r2) else parse_elements f s2 []
            end
          else if ceq c 116 then
            match strip_prefix "rue" r with
            | Some rest => Ok (JBool true, rest)
            | None => Err ExpectedSomeIdent
            end
          else if ceq c 102 then
            match strip_prefix "alse" r with
            | Some rest => Ok (JBool false, rest)
            | None => Err ExpectedSomeIdent
            end
          else if ceq c 110 then
            match strip_prefix "ull" r with
            | Some rest => Ok (JNull, rest)
            | None => Err ExpectedSomeIdent
            end
          else if ceq c 45 || is_digit c then
            match lex_number s1 with
            | Ok (lexeme, rest) => Ok (JNumber lexeme, rest)
            | Err e => Err e
            end
          else Err ExpectedSomeValue
      end
  end
(** Members of an object, from a key onwards; [acc] holds those already read. *)
with parse_members (fuel : nat) (s : string) (acc : list (string * json)) {struct fuel}
  : result serde_error (json * string) :=
  match fuel with
  | O => Err RecursionLimitExceeded
  | S f =>
      match s with
      | EmptyString => Err EofWhileParsingObject
      | String c r =>
          if ceq c 34 then
            match lex_string r with
            | Err e => Err e
            | Ok (key, r1) =>
                match skip_ws r1 with
                | EmptyString => Err EofWhileParsingObject
                | String c1 r2 =>
                    if ceq c1 58 then
                      match parse_value f r2 with
                      | Err e => Err e
                      | Ok (v, r3) =>
                          match skip_ws r3 with
                          | EmptyString => Err EofWhileParsingObject
                          | String c3 r4 =>
                              if ceq c3 44 then
                                match skip_ws r4 with
                                | EmptyString => Err EofWhileParsingValue
                                | String c5 _ as r5 =>
                                    if ceq c5 125 then Err TrailingComma
                                    else parse_members f r5 (acc ++ [(key, v)])
                                end
                              else if ceq c3 125 then Ok (JObject (acc ++ [(key, v)]), r4)
                              else Err ExpectedObjectCommaOrEnd
                          end
                      end
                    else Err ExpectedColon
                end
            end
          else Err KeyMustBeAString
      end
  end
(** Elements of an array, from the first one onwards. *)
with parse_elements (fuel : nat) (s : string) (acc : list json) {struct fuel}
  : result serde_error (json * string) :=
  match fuel with
  | O => Err RecursionLimitExceeded
  | S f =>
      match parse_value f s with
      | Err e => Err e
      | Ok (v, r1) =>
          match skip_ws r1 with
          | EmptyString => Err EofWhileParsingList
          | String c r2 =>
              if ceq c 44 then
                match skip_ws r2 with
                | EmptyString => Err EofWhileParsingValue
                | String c3 _ as r3 =>
                    if ceq c3 93 then Err TrailingComma
                    else parse_elements f r3 (acc ++ [v])
                end
              else if ceq c 93 then Ok (JArray (acc ++ [v]), r2)
              else Err ExpectedListCommaOrEnd
          end
      end
  end.

(** [serde_json::from_str] / [from_slice] up to the typed layer: one value,
    then only whitespace ([Deserializer::end]). *)
Definition parse (s : string) : result serde_error json :=
  match parse_value (S (String.length s)) s with
  | Err e => Err e
  | Ok (v, rest) =>
      match skip_ws rest with
      | EmptyString => Ok v
      | _ => Err TrailingCharacters
      end
  end.

(** ** The compact writer of [serde_json::to_string] *)

Definition hex_digit_lower (v : Z) : ascii :=
  if v <? 10 then ascii_of_byte (48 + v) else ascii_of_byte (97 + (v - 10)).

(** [format_escaped_str_contents] with serde_json's [ESCAPE] table. *)
Definition escape_char (c : ascii) : string :=
  let n := byte_of_ascii c in
  if n =? 34 then String bslash (String dq EmptyString)
  else if n =? 92 then String bslash (String bslash EmptyString)
  else if n =? 8 then String bslash "b"
  else if n =? 12 then String bslash "f"
  else if n =? 10 then String bslash "n"
  else if n =? 13 then String bslash "r"
  else if n =? 9 then String bslash "t"
  else if n <? 32 then
    String bslash (String "u"%char (String "0"%char (String "0"%char
      (String (hex_digit_lower (Z.shiftr n 4)) (String (hex_digit_lower (Z.land n 15)) EmptyString)))))
  else String c EmptyString.

Fixpoint escape_str (s : string) : string :=
  match s with
  | EmptyString => EmptyString
  | String c r => (escape_char c ++ escape_str r)%string
  end.

Definition quote (s : string) : string := String dq (escape_str s ++ String dq EmptyString)%string.

Fixpoint print (v : json) : string :=
  match v with
  | JNull => "null"
  | JBool true => "true"
  | JBool false => "false"
  | JNumber lexeme => lexeme
  | JString s => quote s
  | JArray items =>
      let fix go (l : list json) (first : bool) : string :=
        match l with
        | [] => EmptyString
        | x :: rest => ((if first then "" else ",") ++ print x ++ go rest false)%string
        end in
      ("[" ++ go items true ++ "]")%string
  | JObject entries =>
      let fix go (l : list (string * json)) (first : bool) : string :=
        match l with
        | [] => EmptyString
        | (k, x) :: rest =>
            ((if first then "" else ",") ++ quote k ++ ":" ++ print x ++ go rest false)%string
        end in
      ("{" ++ go entries true ++ "}")%string
  end.

(** ** Derived [Deserialize] for structs (no [deny_unknown_fields])

    From a JSON object, entries whose key is a field name are taken, a
    repeated field is an error, other keys are ignored, and an absent field
    is a [missing field] error.  From a JSON array, the elements are the
    fields in declaration order, and their number must match.  When
    several errors are present, which one serde reports first may differ;
    whether deserialization succeeds, and its result, agree. *)

Fixpoint collect_fields (names : list string) (entries : list (string * json))
  (seen : list (string * json)) : result serde_error (list (string * json)) :=
  match entries with
  | [] => Ok seen
  | (k, v) :: rest =>
      if existsb (String.eqb k) names then
        if existsb (fun p => String.eqb (fst p) k) seen then Err (DuplicateField k)
        else collect_fields names rest (seen ++ [(k, v)])
      else collect_fields names rest seen
  end.

(** The fields of a struct, by name, in declaration order. *)
Definition struct_fields (what : string) (names : list string) (v : json)
  : result serde_error (list json) :=
  match v with
  | JObject entries =>
      let? seen := collect_fields names entries [] in
      let fix pick (ns : list string) : result serde_error (list json) :=
        match ns with
        | [] => Ok []
        | n :: ns' =>
            match find (fun p => String.eqb (fst p) n) seen with
            | Some (_, x) => let? tl := pick ns' in Ok (x :: tl)
            | None => Err (MissingField n)
            end
        end in
      pick names
  | JArray items =>
      if Nat.eqb (length items) (length names) then Ok items
      else Err (InvalidLength (length items))
  | _ => Err (InvalidType what)
  end.

Definition de_string (v : json) : result serde_error string :=
  match v with JString s => Ok s | _ => Err (InvalidType "a string") end.

End Json.

(** ** The [uuid] crate: a [Uuid] is a 128-bit integer *)

Module Uuid.

Definition hex_digits_value (l : list ascii) : option Z :=
  fold_left (fun acc c =>
    match acc, hex_val c 0 with
    | Some a, Ok v => Some (a * 16 + v)
    | _, _ => None
    end) l (Some 0).

Definition is_dash (c : ascii) : bool := Json.ceq c 45.

Definition parse_simple (l : list ascii) : option Z :=
  if Nat.eqb (length l) 32 then hex_digits_value l else None.

(** [8-4-4-4-12] groups separated by dashes. *)
Definition parse_hyphenated (l : list ascii) : option Z :=
  if Nat.eqb (length l) 36
     && is_dash (nth 8 l "0"%char) && is_dash (nth 13 l "0"%char)
     && is_dash (nth 18 l "0"%char) && is_dash (nth 23 l "0"%char)
  then hex_digits_value (firstn 8 l ++ firstn 4 (skipn 9 l) ++ firstn 4 (skipn 14 l)
                         ++ firstn 4 (skipn 19 l) ++ skipn 24 l)
  else None.

(** [Uuid::try_parse]: simple, hyphenated, braced and URN forms. *)
Definition parse_str (s : string) : option Z :=
  let l := list_ascii_of_string s in
  match length l with
  | 32%nat => parse_simple l
  | 36%nat => parse_hyphenated l
  | 38%nat =>
      if Json.ceq (nth 0 l "0"%char) 123 && Json.ceq (nth 37 l "0"%char) 125
      then parse_hyphenated (firstn 36 (skipn 1 l)) else None
  | 45%nat =>
      if String.prefix "urn:uuid:" s then parse_hyphenated (skipn 9 l) else None
  | _ => None
  end.

Fixpoint hex_of (n : nat) (v : Z) : list ascii :=
  match n with
  | O => []
  | S n' => hex_of n' (Z.shiftr v 4) ++ [Json.hex_digit_lower (Z.land v 15)]
  end.

(** [Display]/[Serialize]: lowercase hyphenated form. *)
Definition to_string (u : Z) : string :=
  let d := hex_of 32 u in
  string_of_list_ascii
    (firstn 8 d ++ ["-"%char] ++ firstn 4 (skipn 8 d) ++ ["-"%char] ++ firstn 4 (skipn 12 d)
     ++ ["-"%char] ++ firstn 4 (skipn 16 d) ++ ["-"%char] ++ skipn 20 d).

(** [Deserialize] for human-readable formats: a string in one of the
    accepted forms. *)
Definition de (v : Json.json) : result Json.serde_error Z :=
  match v with
  | Json.JString s =>
      match parse_str s with Some u => Ok u | None => Err (Json.InvalidValue "a UUID string") end
  | _ => Err (Json.InvalidType "a UUID string")
  end.

End Uuid.

(** ** The [chrono] crate: [DateTime<Utc>] from an RFC 3339 string *)

Module DateTime.

(** Seconds since the Unix epoch and nanoseconds. *)
Record DateTimeUtc : Type := mkDateTimeUtc { secs : Z; nanos : Z }.

Definition digits_value (l : list ascii) : option Z :=
  if forallb Json.is_digit l
  then Some (fold_left (fun acc c => acc * 10 + (byte_of_ascii c - 48)) l 0)
  else None.

Definition is_leap (y : Z) : bool := (Z.eqb (y mod 4) 0 && negb (Z.eqb (y mod 100) 0)) || Z.eqb (y mod 400) 0.

Definition days_in_month (y m : Z) : Z :=
  if Z.eqb m 2 then (if is_leap y then 29 else 28)
  else if existsb (Z.eqb m) [4; 6; 9; 11] then 30 else 31.

(** Days from 1970-01-01 to the civil date [y-m-d]. *)
Definition days_from_civil (y m d : Z) : Z :=
  let y' := if m <=? 2 then y - 1 else y in
  let era := y' / 400 in
  let yoe := y' - era * 400 in
  let mp := (m + 9) mod 12 in
  let doy := (153 * mp + 2) / 5 + d - 1 in
  let doe := yoe * 365 + yoe / 4 - yoe / 100 + doy in
  era * 146097 + doe - 719468.

(** Fractional seconds: up to nine significant digits, further ones ignored. *)
Definition frac_nanos (l : list ascii) : option Z :=
  let l9 := firstn 9 l in
  match digits_value l with
  | None => None
  | Some _ =>
      match digits_value l9 with
      | Some v => Some (v * 10 ^ (9 - Z.of_nat (length l9)))
      | None => None
      end
  end.

Fixpoint span_digit_chars (l : list ascii) : list ascii * list ascii :=
  match l with
  | c :: r => if Json.is_digit c then let (d, rest) := span_digit_chars r in (c :: d, rest) else ([], l)
  | [] => ([], [])
  end.

(** The time-zone suffix: [Z], [z], or [+HH:MM] / [-HH:MM]; offset in seconds. *)
Definition parse_offset (l : list ascii) : option Z :=
  match l with
  | [z] => if Json.ceq z 90 || Json.ceq z 122 then Some 0 else None
  | [sg; a; b; col; c; d] =>
      if Json.ceq col 58 then
        match digits_value [a; b], digits_value [c; d] with
        | Some hh, Some mm =>
            if (hh <? 24) && (mm <? 60) then
              if Json.ceq sg 43 then Some (hh * 3600 + mm * 60)
              else if Json.ceq sg 45 then Some (- (hh * 3600 + mm * 60))
              else None
            else None
        | _, _ => None
        end
      else None
  | _ => None
  end.

(** [DateTime<FixedOffset>::from_str] followed by [with_timezone(&Utc)]:
    [YYYY-MM-DD], a [T], [t] or space, [HH:MM:SS], an optional fraction and
    the offset.  A leap second [:60] is kept in the nanoseconds.  Only the
    fixed-width form is read (four-digit year, two-digit fields); inputs
    outside it that chrono's parser may still accept give [None] here. *)
Definition parse_rfc3339 (s : string) : option DateTimeUtc :=
  match list_ascii_of_string s with
  | y1 :: y2 :: y3 :: y4 :: p1 :: m1 :: m2 :: p2 :: dd1 :: dd2 :: sep
      :: h1 :: h2 :: p3 :: mi1 :: mi2 :: p4 :: s1 :: s2 :: rest =>
      if negb (Json.ceq p1 45 && Json.ceq p2 45 && Json.ceq p3 58 && Json.ceq p4 58
               && (Json.ceq sep 84 || Json.ceq sep 116 || Json.ceq sep 32)) then None
      else
        let frac :=
          match rest with
          | dot :: r =>
              if Json.ceq dot 46 then
                let (ds, r') := span_digit_chars r in
                match ds with [] => None | _ => option_map (fun n => (n, r')) (frac_nanos ds) end
              else Some (0, rest)
          | [] => Some (0, rest)
          end in
        match digits_value [y1; y2; y3; y4], digits_value [m1; m2], digits_value [dd1; dd2],
              digits_value [h1; h2], digits_value [mi1; mi2], digits_value [s1; s2], frac with
        | Some y, Some mo, Some d, Some h, Some mi, Some se, Some (ns, r') =>
            if (1 <=? mo) && (mo <=? 12) && (1 <=? d) && (d <=? days_in_month y mo)
               && (h <=? 23) && (mi <=? 59) && (se <=? 60) then
              match parse_offset r' with
              | Some off =>
                  let leap := if se =? 60 then 1 else 0 in
                  Some (mkDateTimeUtc
                          (days_from_civil y mo d * 86400 + h * 3600 + mi * 60 + (se - leap) - off)
                          (ns + leap * 1000000000))
              | None => None
              end
            else None
        | _, _, _, _, _, _, _ => None
        end
  | _ => None
  end.

Definition de (v : Json.json) : result Json.serde_error DateTimeUtc :=
  match v with
  | Json.JString s =>
      match parse_rfc3339 s with
      | Some t => Ok t
      | None => Err (Json.InvalidValue "an RFC 3339 formatted date and time string")
      end
  | _ => Err (Json.InvalidType "a formatted date and time string")
  end.

End DateTime.

(** ** Models *)

(** [ApiResponse<T>] of [src/api.rs]: a struct with the single field [data]. *)
Module ApiResponse.
Record ApiResponse (T : Type) : Type := mkApiResponse { data : T }.
Arguments mkApiResponse {T} data.
Arguments data {T} _.

Definition de {T} (de_T : Json.json -> result Json.serde_error T) (v : Json.json)
  : result Json.serde_error (ApiResponse T) :=
  let? fs := Json.struct_fields "struct ApiResponse" ["data"] v in
  match fs with
  | [d] => let? x := de_T d in Ok (mkApiResponse x)
  | _ => Err (Json.InvalidLength (length fs))
  end.
End ApiResponse.

(** [WalletSetRequest] of [src/circle/models/wallet_set.rs]
    ([rename_all = "camelCase"]). *)
Module WalletSetRequest.
Record WalletSetRequest : Type := mkWalletSetRequest {
  idempotency_key : string;
  entity_secret_cipher_text : string;
  name : string }.

Definition fields : list string := ["idempotencyKey"; "entitySecretCipherText"; "name"].

(** Derived [Serialize]. *)
Definition to_json (r : WalletSetRequest) : Json.json :=
  Json.JObject [("idempotencyKey", Json.JString (idempotency_key r));
                ("entitySecretCipherText", Json.JString (entity_secret_cipher_text r));
                ("name", Json.JString (name r))].

(** Derived [Deserialize]. *)
Definition de (v : Json.json) : result Json.serde_error WalletSetRequest :=
  let? fs := Json.struct_fields "struct WalletSetRequest" fields v in
  match fs with
  | [a; b; c] =>
      let? a' := Json.de_string a in
      let? b' := Json.de_string b in
      let? c' := Json.de_string c in
      Ok (mkWalletSetRequest a' b' c')
  | _ => Err (Json.InvalidLength (length fs))
  end.

(** [serde_json::to_string] and [serde_json::from_str]. *)
Definition to_string (r : WalletSetRequest) : string := Json.print (to_json r).
Definition from_str (s : string) : result Json.serde_error WalletSetRequest :=
  let? v := Json.parse s in de v.
End WalletSetRequest.

(** [WalletSetResponse] of [src/circle/models/wallet_set.rs]. *)
Module WalletSetResponse.
Record WalletSetResponse : Type := mkWalletSetResponse {
  id : Z;
  custody_type : string;
  name : string;
  update_date : DateTime.DateTimeUtc;
  create_date : DateTime.DateTimeUtc }.

Definition fields : list string := ["id"; "custodyType"; "name"; "updateDate"; "createDate"].

Definition de (v : Json.json) : result Json.serde_error WalletSetResponse :=
  let? fs := Json.struct_fields "struct WalletSetResponse" fields v in
  match fs with
  | [a; b; c; d; e] =>
      let? a' := Uuid.de a in
      let? b' := Json.de_string b in
      let? c' := Json.de_string c in
      let? d' := DateTime.de d in
      let? e' := DateTime.de e in
      Ok (mkWalletSetResponse a' b' c' d' e')
  | _ => Err (Json.InvalidLength (length fs))
  end.
End WalletSetResponse.

(** Modelled from the spec: [PublicKeyResponse] ([models/public_key.rs] is
    not in src/); the key-discovery payload is [{ publicKey: <PEM string> }]. *)
Module PublicKeyResponse.
Record PublicKeyResponse : Type := mkPublicKeyResponse { public_key : string }.

Definition de (v : Json.json) : result Json.serde_error PublicKeyResponse :=
  let? fs := Json.struct_fields "struct PublicKeyResponse" ["publicKey"] v in
  match fs with
  | [a] => let? a' := Json.de_string a in Ok (mkPublicKeyResponse a')
  | _ => Err (Json.InvalidLength (length fs))
  end.
End PublicKeyResponse.

(** [WalletSetResponse] of [crate::models::wallet_set], the type [api.rs]
    imports and [create_wallet_set] returns ([models/wallet_set.rs] is not
    in src/): modelled from its uses, [test_parse_wallet_set_response]
    reads [.data.wallet_set.name] and [examples/managed_wallet.rs] reads
    [.wallet_set]; a struct with one field [wallet_set] ([walletSet] on the
    wire) holding the wallet-set record, whose fields are those of the
    [WalletSetResponse] of [src/circle/models/wallet_set.rs]. *)
Module WalletSetEnvelope.
Record WalletSetEnvelope : Type := mkWalletSetEnvelope {
  wallet_set : WalletSetResponse.WalletSetResponse }.

Definition de (v : Json.json) : result Json.serde_error WalletSetEnvelope :=
  let? fs := Json.struct_fields "struct WalletSetEnvelope" ["walletSet"] v in
  match fs with
  | [a] => let? a' := WalletSetResponse.de a in Ok (mkWalletSetEnvelope a')
  | _ => Err (Json.InvalidLength (length fs))
  end.
End WalletSetEnvelope.

(** Modelled from the spec: [WalletCreateRequest] ([models/wallet_create.rs]
    is not in src/); body [{ idempotencyKey, entitySecretCipherText,
    walletSetId: uuid, blockchains: [string], count: integer }]. *)
Module WalletCreateRequest.
Record WalletCreateRequest : Type := mkWalletCreateRequest {
  idempotency_key : Z;
  entity_secret_cipher_text : string;
  wallet_set_id : Z;
  blockchains : list string;
  count : Z }.

Definition decimal (n : Z) : string :=
  let fix go (fuel : nat) (n : Z) (acc : string) : string :=
    match fuel with
    | O => acc
    | S f => let acc' := String (ascii_of_byte (48 + n mod 10)) acc in
             if n <? 10 then acc' else go f (n / 10) acc'
    end in
  go 20%nat n EmptyString.

Definition to_json (r : WalletCreateRequest) : Json.json :=
  Json.JObject [("idempotencyKey", Json.JString (Uuid.to_string (idempotency_key r)));
                ("entitySecretCipherText", Json.JString (entity_secret_cipher_text r));
                ("walletSetId", Json.JString (Uuid.to_string (wallet_set_id r)));
                ("blockchains", Json.JArray (map Json.JString (blockchains r)));
                ("count", Json.JNumber (decimal (count r)))].
End WalletCreateRequest.

(** ** Errors *)

(** The [reqwest::Error]s reachable here: sending the request (connection,
    TLS, timeout), reading the response body, and decoding it as JSON. *)
Inductive ReqwestError : Type :=
| RequestFailed
| BodyFailed
| DecodeFailed (e : Json.serde_error).

(** [CircleError] of [src/error.rs], with the [ResponseStatusCodeError]
    variant that [src/api.rs] constructs from the response status. *)
Module Error.
Inductive CircleError : Type :=
| ApiError (request_id : Z) (api_error : string)
| ValueError
| MissingRequestId
| RequestIdIsNotAValidString
| RequestIdIsNotAValidUuid
| UnknownRequestError (e : ReqwestError)
| FromHexError (e : FromHexError)
| RsaError (e : RsaError)
| ResponseStatusCodeError (status : Z).
End Error.

(** [anyhow::Error], the error of every [anyhow::Result] in [src/api.rs]:
    it wraps whatever error value [?] converted into it. *)
Inductive AnyhowError : Type :=
| AnyReqwest (e : ReqwestError)
| AnyCircle (e : Error.CircleError)
| AnyHex (e : FromHexError)
| AnyRsa (e : RsaError).

(** ** Effects: entropy, network and the observable log *)

Inductive Method : Type := GET | POST.

Record HttpRequest : Type := mkHttpRequest {
  method : Method;
  url : string;
  headers : list (string * string);
  query : list (string * string);
  body : option string }.

Inductive ResponseBody : Type :=
| BodyText (text : string)
| BodyReadError.

(** What the remote service does with one request. *)
Inductive Exchange : Type :=
| TransportFailure
| Response (status : Z) (rbody : ResponseBody).

(** [StatusCode::is_success]: 200 to 299. *)
Definition is_success (status : Z) : bool := (200 <=? status) && (status <=? 299).

Inductive Event : Type :=
| RsaEncryptCall (msg : list Z)     (** [RsaPublicKey::encrypt] invoked *)
| HttpSend (req : HttpRequest).      (** [RequestBuilder::send] invoked *)

Record World : Type := mkWorld {
  entropy : nat -> Z;        (** the byte stream behind [rand::thread_rng] *)
  entropy_pos : nat;         (** bytes of it consumed so far *)
  network : list Exchange;   (** the service's answers, in order *)
  log : list Event }.

Inductive outcome (E A : Type) : Type :=
| Done (a : A)
| Failed (e : E)
| Panicked (msg : string).
Arguments Done {E A} a.
Arguments Failed {E A} e.
Arguments Panicked {E A} msg.

Definition M (E A : Type) : Type := World -> outcome E A * World.

Definition ret {E A} (a : A) : M E A := fun w => (Done a, w).
Definition bind {E A B} (m : M E A) (k : A -> M E B) : M E B :=
  fun w =>
    match m w with
    | (Done a, w') => k a w'
    | (Failed e, w') => (Failed e, w')
    | (Panicked p, w') => (Panicked p, w')
    end.
Definition fail {E A} (e : E) : M E A := fun w => (Failed e, w).
Definition panic {E A} (msg : string) : M E A := fun w => (Panicked msg, w).

(** Rust's [?]: the error is converted with [From]. *)
Definition try {E E' A} (conv : E -> E') (m : M E A) : M E' A :=
  fun w =>
    match m w with
    | (Done a, w') => (Done a, w')
    | (Failed e, w') => (Failed (conv e), w')
    | (Panicked p, w') => (Panicked p, w')
    end.
Definition of_result {E A} (r : result E A) : M E A :=
  match r with Ok a => ret a | Err e => fail e end.

Notation "x <- m ;; k" := (bind m (fun x => k)) (at level 61, m at next level, right associativity).

Definition log_event {E} (ev : Event) : M E unit :=
  fun w => (Done tt, mkWorld (entropy w) (entropy_pos w) (network w) (log w ++ [ev])).

(** [rng.fill_bytes] on a buffer of [n] bytes. *)
Definition fill_bytes {E} (n : nat) : M E (list Z) :=
  fun w =>
    (Done (map (fun i => entropy w (entropy_pos w + i)%nat mod 256) (seq 0 n)),
     mkWorld (entropy w) (entropy_pos w + n) (network w) (log w)).

(** [RequestBuilder::send]: the request leaves; the next scripted answer
    comes back (a transport failure when none is left). *)
Definition send (req : HttpRequest) : M ReqwestError (Z * ResponseBody) :=
  fun w =>
    let lg := log w ++ [HttpSend req] in
    match network w with
    | Response st b :: rest => (Done (st, b), mkWorld (entropy w) (entropy_pos w) rest lg)
    | TransportFailure :: rest => (Failed RequestFailed, mkWorld (entropy w) (entropy_pos w) rest lg)
    | [] => (Failed RequestFailed, mkWorld (entropy w) (entropy_pos w) [] lg)
    end.

(** [Response::json::<T>()]: read the body, then [serde_json::from_slice]. *)
Definition response_json {T} (de : Json.json -> result Json.serde_error T) (b : ResponseBody)
  : result ReqwestError T :=
  match b with
  | BodyReadError => Err BodyFailed
  | BodyText text =>
      match Json.parse text with
      | Err e => Err (DecodeFailed e)
      | Ok v => match de v with Ok t => Ok t | Err e => Err (DecodeFailed e) end
      end
  end.

(** [RsaPublicKey::encrypt(&mut rng, Oaep::new::<Sha256>(), msg)]. *)
Definition rsa_encrypt (key : RsaPublicKey) (msg : list Z) : M RsaError (list Z) :=
  _ <- log_event (RsaEncryptCall msg) ;;
  if oaep_fits key msg then
    seed <- fill_bytes h_size ;;
    of_result (oaep_ciphertext key msg seed)
  else fail MessageTooLong.

(** [encrypt_entity_secret] of [src/api.rs]. *)
Definition encrypt_entity_secret (public_key : RsaPublicKey) (entity_secret : string)
  : M AnyhowError string :=
  entity_secret <- try AnyHex (of_result (hex_decode entity_secret)) ;;
  enc_data <- try AnyRsa (rsa_encrypt public_key entity_secret) ;;
  ret (base64_encode enc_data).

(** [str::replace(from, to)]: every non-overlapping match of [from] found
    scanning left to right is replaced by [to]; [skip] counts the characters
    of the match being passed over. *)
Fixpoint replace_go (from to : string) (skip : nat) (s : string) : string :=
  match s with
  | EmptyString => EmptyString
  | String c r =>
      match skip with
      | S k => replace_go from to k r
      | O =>
          if String.prefix from s
          then (to ++ replace_go from to (String.length from - 1) r)%string
          else String c (replace_go from to O r)
      end
  end.

(** With an empty [from], [to] is inserted at every character boundary. *)
Fixpoint replace_empty (to s : string) : string :=
  match s with
  | EmptyString => to
  | String c r => (to ++ String c (replace_empty to r))%string
  end.

Definition str_replace (from to s : string) : string :=
  match from with
  | EmptyString => replace_empty to s
  | _ => replace_go from to O s
  end.

(** ** [CircleClient] of [src/api.rs]

    The [reqwest::Client] handle is the network of the world.  The model
    files of the wallet-creation, balance and transaction payloads are not
    in src/: those operations take the payload's [Deserialize] impl (and the
    transaction request's [Serialize] impl) as arguments, as the Rust code
    is generic in them through [res.json::<ApiResponse<T>>()]. *)

Record CircleClient : Type := mkCircleClient {
  base_url : string;
  api_key : string;
  circle_entity_secret : string;
  public_key : RsaPublicKey }.

(** [.bearer_auth(token)] *)
Definition bearer (token : string) : string * string := ("Authorization", "Bearer " ++ token)%string.

(** [client.post(url).json(&body).bearer_auth(key)] *)
Definition post_json (url : string) (body : Json.json) (key : string) : HttpRequest :=
  mkHttpRequest POST url [("Content-Type", "application/json"); bearer key] [] (Some (Json.print body)).

(** The status branch shared by every operation:
    [if res.status().is_success() { res.json::<ApiResponse<T>>().await?.data }
     else { Err(CircleError::ResponseStatusCodeError(res.status()))? }]. *)
Definition handle_response {T} (de : Json.json -> result Json.serde_error T) (res : Z * ResponseBody)
  : M AnyhowError T :=
  if is_success (fst res) then
    r <- try AnyReqwest (of_result (response_json (ApiResponse.de de) (snd res))) ;;
    ret (ApiResponse.data r)
  else fail (AnyCircle (Error.ResponseStatusCodeError (fst res))).

(** The fixed start of the panic message of [Result::unwrap]; the real
    message goes on with [": "] and the [Debug] form of the error, which
    [from_public_key_pem] (modelled by an option) does not expose here. *)
Definition unwrap_panic_msg : string := "called `Result::unwrap()` on an `Err` value".

(** [CircleClient::new]; [from_public_key_pem] is
    [RsaPublicKey::from_public_key_pem] ([None] for its [Err]). *)
Definition new (from_public_key_pem : string -> option RsaPublicKey)
  (api_key circle_entity_secret : string) : M AnyhowError CircleClient :=
  let base_url := "https://api.circle.com/v1/" in
  let url := (base_url ++ "w3s/config/entity/publicKey")%string in
  res <- try AnyReqwest (send (mkHttpRequest GET url
                                 [("Content-Type", "application/json"); bearer api_key] [] None)) ;;
  public_key_response <- handle_response PublicKeyResponse.de res ;;
  let public_key_str := str_replace "RSA " "" (PublicKeyResponse.public_key public_key_response) in
  match from_public_key_pem public_key_str with
  | Some public_key => ret (mkCircleClient base_url api_key circle_entity_secret public_key)
  | None => panic unwrap_panic_msg
  end.

(** [CircleClient::create_wallet_set].  [WalletSetRequest.idempotency_key]
    is a [String] in wallet_set.rs while api.rs passes the [Uuid]; either
    way the wire carries the [Uuid]'s serde form, its hyphenated string.
    The answer is decoded as the [WalletSetResponse] of
    [crate::models::wallet_set] that api.rs imports, [WalletSetEnvelope]
    here. *)
Definition create_wallet_set (self : CircleClient) (idempotency_key : Z) (name : string)
  : M AnyhowError WalletSetEnvelope.WalletSetEnvelope :=
  let url := (base_url self ++ "w3s/developer/walletSets")%string in
  c <- encrypt_entity_secret (public_key self) (circle_entity_secret self) ;;
  let request := WalletSetRequest.mkWalletSetRequest (Uuid.to_string idempotency_key) c name in
  res <- try AnyReqwest (send (post_json url (WalletSetRequest.to_json request) (api_key self))) ;;
  handle_response WalletSetEnvelope.de res.

(** [CircleClient::create_wallet]. *)
Definition create_wallet {R} (de_response : Json.json -> result Json.serde_error R)
  (self : CircleClient) (idempotency_key wallet_set_id : Z) (blockchains : list string) (count : Z)
  : M AnyhowError R :=
  let url := (base_url self ++ "w3s/developer/wallets")%string in
  c <- encrypt_entity_secret (public_key self) (circle_entity_secret self) ;;
  let request := WalletCreateRequest.mkWalletCreateRequest idempotency_key c wallet_set_id blockchains count in
  res <- try AnyReqwest (send (post_json url (WalletCreateRequest.to_json request) (api_key self))) ;;
  handle_response de_response res.

(** [CircleClient::get_wallet_balance]; the query parameters are given in
    their [serde_urlencoded] form. *)
Definition get_wallet_balance {R} (de_response : Json.json -> result Json.serde_error R)
  (self : CircleClient) (wallet_id : Z) (query_params : list (string * string))
  : M AnyhowError R :=
  let url := (base_url self ++ "w3s/wallets/" ++ Uuid.to_string wallet_id ++ "/balances")%string in
  res <- try AnyReqwest (send (mkHttpRequest GET url [bearer (api_key self)] query_params None)) ;;
  handle_response de_response res.

(** [CircleClient::initiate_transaction]: the caller's request is sent as
    it is. *)
Definition initiate_transaction {Rq R} (ser_request : Rq -> Json.json)
  (de_response : Json.json -> result Json.serde_error R) (self : CircleClient) (request : Rq)
  : M AnyhowError R :=
  let url := (base_url self ++ "w3s/developer/transactions/transfer")%string in
  res <- try AnyReqwest (send (post_json url (ser_request request) (api_key self))) ;;
  handle_response de_response res.

(** ** Vocabulary of the properties *)

(** The error taxonomy of the specification (section 7). *)
Inductive ErrorKind : Type :=
| KTransport
| KStatus (code : Z)
| KDecode
| KHex
| KCrypto.

Definition classify (e : AnyhowError) : option ErrorKind :=
  match e with
  | AnyReqwest RequestFailed | AnyReqwest BodyFailed => Some KTransport
  | AnyReqwest (DecodeFailed _) => Some KDecode
  | AnyCircle (Error.ResponseStatusCodeError st) => Some (KStatus st)
  | AnyCircle _ => None
  | AnyHex _ => Some KHex
  | AnyRsa _ => Some KCrypto
  end.

(** Every error the computation can return falls in one of the kinds. *)
Definition errors_classified {A} (m : M AnyhowError A) : Prop :=
  forall w e w', m w = (Failed e, w') -> classify e <> None.

(** The status-code error of [error.rs] for [status]. *)
Definition status_error (status : Z) : AnyhowError :=
  AnyCircle (Error.ResponseStatusCodeError status).

(** Run on [w], [m] fails with an error of kind [k]. *)
Definition fails_with_kind {A} (m : M AnyhowError A) (w : World) (k : ErrorKind) : Prop :=
  match fst (m w) with Failed e => classify e = Some k | _ => False end.

(** The 32 bytes the next [fill_bytes h_size] returns. *)
Definition next_seed (w : World) : list Z :=
  map (fun i => entropy w (entropy_pos w + i)%nat mod 256) (seq 0 h_size).

(** The world after one call to the RSA routine on [m] that drew [used]
    bytes of entropy. *)
Definition after_rsa_call (w : World) (m : list Z) (used : nat) : World :=
  mkWorld (entropy w) (entropy_pos w + used) (network w) (log w ++ [RsaEncryptCall m]).

(** The raw RSA map of the key is one-to-one on [0, n): true of every RSA
    key (it has a decryption exponent). *)
Definition rsa_injective (key : RsaPublicKey) : Prop :=
  forall a b, 0 <= a < key_n key -> 0 <= b < key_n key ->
  rsa_encrypt_raw key a = rsa_encrypt_raw key b -> a = b.


(** Removing one leading occurrence of a prefix, and nothing else: the
    reading of the key-string clean-up that claim C9 states. *)
Definition strip_leading_prefix (p s : string) : string :=
  match Json.strip_prefix p s with Some r => r | None => s end.

(** [p] occurs in [s]: some suffix of [s] starts with [p]. *)
Fixpoint contains (p s : string) : bool :=
  match s with
  | EmptyString => String.prefix p s
  | String _ r => String.prefix p s || contains p r
  end.

(** Helpers for concrete inputs: ['] stands for a double quote. *)
Definition dquotes (s : string) : string :=
  string_of_list_ascii
    (map (fun c => if ascii_dec c "'"%char then Json.dq else c) (list_ascii_of_string s)).

Fixpoint repeat_string (n : nat) (s : string) : string :=
  match n with O => EmptyString | S n' => (s ++ repeat_string n' s)%string end.

(** Sample worlds and keys. [key_4096] has the size of the key the service
    publishes (512 bytes); [key_512] is a 64-byte modulus; [key_id600] is a
    77-byte modulus with exponent 1, whose raw map is the identity on [0, n). *)
Definition sample_world : World := mkWorld (fun i => Z.of_nat i) 0 [] [].
Definition other_world : World := mkWorld (fun i => Z.of_nat i) 32 [] [].
Definition key_4096 : RsaPublicKey := mkRsaPublicKey (2 ^ 4095 + 1) 65537.
Definition key_512 : RsaPublicKey := mkRsaPublicKey (2 ^ 511 + 1) 65537.
Definition key_id600 : RsaPublicKey := mkRsaPublicKey (2 ^ 600) 1.

(** A client holding [key_id600] and the entity secret [74657374] (hex of
    the ASCII text [test], as in the tests of [api.rs]), and a key decoder
    that accepts nothing. *)
Definition sample_client : CircleClient :=
  mkCircleClient "https://api.circle.com/v1/" "API_KEY" "74657374" key_id600.
Definition pem_none (s : string) : option RsaPublicKey := None.

(** The body of [test_parse_wallet_set_response] in [api.rs]. *)
Definition wallet_set_fixture : string :=
  dquotes ("{'data':{'walletSet':{'id':'0068d5a4-eb64-4399-8441-a9af33af80a0'," ++
           "'custodyType':'DEVELOPER','name':'test_wallet_set'," ++
           "'updateDate':'2023-11-25T14:26:38Z','createDate':'2023-11-25T14:26:38Z'}}}").
Definition client_bad_hex : CircleClient :=
  mkCircleClient "https://api.circle.com/v1/" "API_KEY" "zz" key_id600.
Definition client_small_key : CircleClient :=
  mkCircleClient "https://api.circle.com/v1/" "API_KEY" "74657374" key_512.

(** A world whose service answers once, with status [st] and body [body]. *)
Definition answering_world (st : Z) (body : string) : World :=
  mkWorld (fun i => Z.of_nat i) 0 [Response st (BodyText body)] [].

(** A key string in PKCS#1 armor, the same armor as a SubjectPublicKeyInfo
    PEM, and a key decoder that accepts exactly one text. *)
Definition pkcs1_armor : string :=
  "-----BEGIN RSA PUBLIC KEY-----MIIBCgKCAQEA-----END RSA PUBLIC KEY-----".
Definition spki_armor : string :=
  "-----BEGIN PUBLIC KEY-----MIIBCgKCAQEA-----END PUBLIC KEY-----".
Definition pem_exact (text s : string) : option RsaPublicKey :=
  if String.eqb s text then Some key_id600 else None.
Definition key_body (pk : string) : string :=
  (dquotes "{'data':{'publicKey':'" ++ pk ++ dquotes "'}}")%string.

(** ** Further definitions: [hex::encode], requests and the example *)

(** [hex::encode], which [test_encrypt_hex_entity_secret] of [src/api.rs]
    uses to build a secret: each byte as two lower-case hex digits, high
    nibble first. *)
Definition hex_encode (l : list Z) : string :=
  string_of_list_ascii
    (flat_map (fun b => [Json.hex_digit_lower (Z.shiftr b 4); Json.hex_digit_lower (Z.land b 15)]) l).

(** ** The balance phase of [run] in [examples/managed_wallet.rs]

    [join_all(balance_futures).await.into_iter().collect::<Result<Vec<_>>>()?]
    of lines 68-77.  The futures are run one after another in the order of
    the wallets: each sends its request and takes the next answer of the
    network, and a failed one does not stop the others.  A panic inside a
    future is not caught and ends the whole computation. *)
Module Example.

(** The output of one future of [join_all]: its [Result] as a value. *)
Definition settle {E A} (m : M E A) : M E (result E A) :=
  fun w =>
    match m w with
    | (Done a, w') => (Done (Ok a), w')
    | (Failed e, w') => (Done (Err e), w')
    | (Panicked p, w') => (Panicked p, w')
    end.

(** [futures::future::join_all]: every future runs to completion. *)
Fixpoint join_all {E A} (ms : list (M E A)) : M E (list (result E A)) :=
  match ms with
  | [] => ret []
  | m :: r => x <- settle m ;; xs <- join_all r ;; ret (x :: xs)
  end.

(** [Iterator::collect::<Result<Vec<_>, _>>]: the first [Err] in order,
    or [Ok] of all the values. *)
Fixpoint collect_results {E A} (l : list (result E A)) : result E (list A) :=
  match l with
  | [] => Ok []
  | Ok a :: r => let? t := collect_results r in Ok (a :: t)
  | Err e :: _ => Err e
  end.

(** [balance_futures] for the wallet ids, then [join_all] and [collect];
    [?] passes the error on unchanged. *)
Definition fetch_balances {R} (de_response : Json.json -> result Json.serde_error R)
  (circle_client : CircleClient) (wallet_ids : list Z) (query_params : list (string * string))
  : M AnyhowError (list R) :=
  rs <- join_all (map (fun id => get_wallet_balance de_response circle_client id query_params) wallet_ids) ;;
  of_result (collect_results rs).

End Example.

(** The request [get_wallet_balance] sends. *)
Definition balance_request (self : CircleClient) (wallet_id : Z) (query_params : list (string * string))
  : HttpRequest :=
  mkHttpRequest GET (base_url self ++ "w3s/wallets/" ++ Uuid.to_string wallet_id ++ "/balances")
    [bearer (api_key self)] query_params None.

(** The request [new] sends. *)
Definition public_key_request (api_key : string) : HttpRequest :=
  mkHttpRequest GET "https://api.circle.com/v1/w3s/config/entity/publicKey"
    [("Content-Type", "application/json"); bearer api_key] [] None.

(** The request [create_wallet_set] sends with the ciphertext [c]. *)
Definition wallet_set_request (self : CircleClient) (k : Z) (name c : string) : HttpRequest :=
  post_json (base_url self ++ "w3s/developer/walletSets")
    (WalletSetRequest.to_json (WalletSetRequest.mkWalletSetRequest (Uuid.to_string k) c name))
    (api_key self).

(** The world after one request: one answer consumed, the request logged. *)
Definition after_send (w : World) (req : HttpRequest) : World :=
  mkWorld (entropy w) (entropy_pos w) (tl (network w)) (log w ++ [HttpSend req]).

(** The RFC 3339 offset [sgHH:MM] written with the given characters. *)
Definition offset_string (sg h1 h2 m1 m2 : ascii) : string :=
  String sg (String h1 (String h2 (String ":" (String m1 (String m2 EmptyString))))).


(** ** Monad lemmas *)

Lemma bind_done {E A B} (m : M E A) (k : A -> M E B) w a w' :
  m w = (Done a, w') -> bind m k w = k a w'.
Proof. intros H. unfold bind. rewrite H. reflexivity. Qed.

Lemma bind_failed {E A B} (m : M E A) (k : A -> M E B) w e w' :
  m w = (Failed e, w') -> bind m k w = (Failed e, w').
Proof. intros H. unfold bind. rewrite H. reflexivity. Qed.

(** ** The hex layer *)

Lemma hex_val_ok_iff c i : is_hex_digit c = true <-> exists v, hex_val c i = Ok v.
Proof.
  unfold is_hex_digit, hex_val.
  destruct ((65 <=? byte_of_ascii c) && (byte_of_ascii c <=? 70)); simpl;
  [split; eauto|].
  destruct ((97 <=? byte_of_ascii c) && (byte_of_ascii c <=? 102)); simpl;
  [split; eauto|].
  destruct ((48 <=? byte_of_ascii c) && (byte_of_ascii c <=? 57)); simpl;
  [split; eauto|].
  split; [discriminate | intros [v Hv]; discriminate].
Qed.

Lemma hex_pairs_cons a b rest i :
  hex_pairs (String a (String b rest)) i =
  r_bind (hex_val a (2 * i)) (fun hi =>
  r_bind (hex_val b (2 * i + 1)) (fun lo =>
  r_bind (hex_pairs rest (S i)) (fun tl => Ok (Z.lor (Z.shiftl hi 4) lo :: tl)))).
Proof. reflexivity. Qed.

Lemma hex_val_cases c i :
  (is_hex_digit c = true /\ exists v, hex_val c i = Ok v) \/
  (is_hex_digit c = false /\ exists e, hex_val c i = Err e).
Proof.
  destruct (is_hex_digit c) eqn:H.
  - left. split; auto. apply hex_val_ok_iff; auto.
  - right. split; auto. destruct (hex_val c i) eqn:E; eauto.
    assert (is_hex_digit c = true) by (apply (hex_val_ok_iff c i); eauto). congruence.
Qed.

Lemma hex_pairs_ok_iff : forall n s i, (String.length s <= n)%nat ->
  Nat.even (String.length s) = true ->
  (forallb is_hex_digit (list_ascii_of_string s) = true <-> exists l, hex_pairs s i = Ok l).
Proof.
  induction n as [|n IH]; intros s i Hn Hev.
  - destruct s; [simpl; split; eauto | simpl in Hn; lia].
  - destruct s as [|a [|b rest]].
    + simpl; split; eauto.
    + discriminate Hev.
    + rewrite hex_pairs_cons.
      change (forallb is_hex_digit (list_ascii_of_string (String a (String b rest))))
        with (is_hex_digit a && (is_hex_digit b && forallb is_hex_digit (list_ascii_of_string rest))).
      simpl in Hn, Hev.
      destruct (hex_val_cases a (2 * i)) as [[Ha [va Hva]] | [Ha [ea Hea]]];
        rewrite Ha, ?Hva, ?Hea; cbn [r_bind andb].
      * destruct (hex_val_cases b (2 * i + 1)) as [[Hb [vb Hvb]] | [Hb [eb Heb]]];
          rewrite Hb, ?Hvb, ?Heb; cbn [r_bind andb].
        -- rewrite (IH rest (S i)); [| lia | exact Hev].
           split; intros [l Hl]; [rewrite Hl; cbn [r_bind]; eauto|].
           destruct (hex_pairs rest (S i)); [eauto | discriminate].
        -- split; [discriminate | intros [l Hl]; discriminate].
      * split; [discriminate | intros [l Hl]; discriminate].
Qed.

Lemma hex_decode_ok_iff s : valid_hex s = true <-> exists l, hex_decode s = Ok l.
Proof.
  unfold valid_hex, hex_decode. rewrite <- Nat.negb_even.
  destruct (Nat.even (String.length s)) eqn:Hev; simpl.
  - apply (hex_pairs_ok_iff (String.length s)); auto.
  - split; [discriminate | intros [l Hl]; discriminate].
Qed.

Lemma hex_decode_err_of_invalid s : valid_hex s = false -> exists e, hex_decode s = Err e.
Proof.
  intros H. destruct (hex_decode s) as [l|e] eqn:E; eauto.
  assert (valid_hex s = true) by (apply hex_decode_ok_iff; eauto). congruence.
Qed.

(** ** [encrypt_entity_secret], step by step *)

Lemma encrypt_hex_err key s w e :
  hex_decode s = Err e -> encrypt_entity_secret key s w = (Failed (AnyHex e), w).
Proof. intros H. unfold encrypt_entity_secret, try, of_result, bind, fail. rewrite H. reflexivity. Qed.

Lemma encrypt_too_long key s m w :
  hex_decode s = Ok m -> oaep_fits key m = false ->
  encrypt_entity_secret key s w = (Failed (AnyRsa MessageTooLong), after_rsa_call w m 0).
Proof.
  intros H Hf. unfold encrypt_entity_secret, after_rsa_call, try, of_result, bind, ret, fail,
    rsa_encrypt, log_event. rewrite H. simpl. rewrite Hf. simpl. rewrite Nat.add_0_r. reflexivity.
Qed.

Lemma encrypt_fits key s m w :
  hex_decode s = Ok m -> oaep_fits key m = true ->
  encrypt_entity_secret key s w =
  match oaep_ciphertext key m (next_seed w) with
  | Ok ct => (Done (base64_encode ct), after_rsa_call w m h_size)
  | Err e => (Failed (AnyRsa e), after_rsa_call w m h_size)
  end.
Proof.
  intros H Hf. unfold after_rsa_call, next_seed.
  cbv beta iota zeta delta [encrypt_entity_secret try of_result bind ret fail
    rsa_encrypt log_event fill_bytes].
  rewrite H. cbv beta iota zeta. rewrite Hf. cbn [entropy entropy_pos network log].
  destruct (oaep_ciphertext key m _); reflexivity.
Qed.

(** ** Arithmetic of the RSA step *)

Lemma pow_mod_pos_range b p n : 0 < n -> 0 <= pow_mod_pos b p n < n.
Proof. intros Hn. destruct p; simpl; apply Z.mod_pos_bound; lia. Qed.

Lemma rsa_encrypt_raw_range key m : 0 < key_n key -> 0 <= rsa_encrypt_raw key m < key_n key.
Proof.
  intros Hn. unfold rsa_encrypt_raw, modpow.
  destruct (key_e key); [apply Z.mod_pos_bound; lia | apply pow_mod_pos_range; lia | lia].
Qed.

Lemma bits_nonneg n : 0 <= bits n.
Proof. unfold bits. destruct (n =? 0); [lia|]. pose proof (Z.log2_nonneg n). lia. Qed.

Lemma key_size_Z key : Z.of_nat (key_size key) = (bits (key_n key) + 7) / 8.
Proof.
  unfold key_size. rewrite Z2Nat.id; [reflexivity|].
  apply Z.div_pos; [pose proof (bits_nonneg (key_n key)); lia | lia].
Qed.

Lemma key_n_pos key : (2 <= key_size key)%nat -> 0 < key_n key.
Proof.
  intros Hk. pose proof (key_size_Z key) as E.
  assert (Hb : 8 < bits (key_n key)).
  { assert (2 <= (bits (key_n key) + 7) / 8) by lia.
    destruct (Z.le_gt_cases (bits (key_n key)) 8); [|lia].
    assert (H15 : (bits (key_n key) + 7) / 8 <= 15 / 8) by (apply Z.div_le_mono; lia).
    change (15 / 8) with 1 in H15. lia. }
  unfold bits in Hb. destruct (Z.eqb_spec (key_n key) 0); [lia|].
  destruct (Z.le_gt_cases (key_n key) 0) as [Hle|]; [|lia].
  rewrite Z.log2_nonpos in Hb by lia. lia.
Qed.

Lemma bits_mono a b : 0 <= a <= b -> bits a <= bits b.
Proof.
  intros H. unfold bits.
  destruct (Z.eqb_spec a 0), (Z.eqb_spec b 0); try lia.
  - pose proof (Z.log2_nonneg b). lia.
  - pose proof (Z.log2_le_mono a b). lia.
Qed.

Lemma be_bytes_length k c : length (be_bytes k c) = k.
Proof.
  revert c. induction k as [|k IH]; intros c; simpl; [reflexivity|].
  rewrite length_app, IH. simpl. lia.
Qed.

Lemma be_bytes_range k c : bytes_ok (be_bytes k c).
Proof.
  revert c. induction k as [|k IH]; intros c; simpl; [constructor|].
  apply Forall_app. split; [apply IH|]. constructor; [|constructor].
  unfold is_byte. pose proof (Z.mod_pos_bound c 256). lia.
Qed.

Lemma uint_to_be_pad_ok key c :
  (2 <= key_size key)%nat -> 0 <= c < key_n key ->
  uint_to_be_pad c (key_size key) = Ok (be_bytes (key_size key) c).
Proof.
  intros Hk Hc. unfold uint_to_be_pad. rewrite key_size_Z.
  assert (Hle : (if c =? 0 then 1 else (bits c + 7) / 8) <= (bits (key_n key) + 7) / 8).
  { pose proof (key_size_Z key).
    destruct (Z.eqb_spec c 0); [lia|].
    apply Z.div_le_mono; [lia|]. pose proof (bits_mono c (key_n key)). lia. }
  destruct (Z.ltb_spec ((bits (key_n key) + 7) / 8) (if c =? 0 then 1 else (bits c + 7) / 8));
    [lia | reflexivity].
Qed.

Lemma oaep_ciphertext_ok key m seed :
  (2 <= key_size key)%nat ->
  oaep_ciphertext key m seed =
  Ok (be_bytes (key_size key) (rsa_encrypt_raw key (os2ip (oaep_encode m seed (key_size key))))).
Proof.
  intros Hk. unfold oaep_ciphertext. apply uint_to_be_pad_ok; auto.
  apply rsa_encrypt_raw_range, key_n_pos; auto.
Qed.

Lemma encrypt_valid key s m w :
  hex_decode s = Ok m -> (length m + 66 <= key_size key)%nat ->
  encrypt_entity_secret key s w =
  (Done (base64_encode (be_bytes (key_size key)
     (rsa_encrypt_raw key (os2ip (oaep_encode m (next_seed w) (key_size key)))))),
   after_rsa_call w m h_size).
Proof.
  intros H Hk. rewrite (encrypt_fits key s m w H).
  - rewrite oaep_ciphertext_ok by lia. reflexivity.
  - unfold oaep_fits, h_size. apply Nat.leb_le. lia.
Qed.

Lemma encrypt_no_hex_error_of_valid key s w e w' :
  valid_hex s = true -> encrypt_entity_secret key s w <> (Failed (AnyHex e), w').
Proof.
  intros Hv. apply hex_decode_ok_iff in Hv as [m Hm].
  destruct (oaep_fits key m) eqn:Hf.
  - rewrite (encrypt_fits key s m w Hm Hf).
    destruct (oaep_ciphertext key m (next_seed w)); discriminate.
  - rewrite (encrypt_too_long key s m w Hm Hf). discriminate.
Qed.

Lemma base64_encode_nonempty l : l <> [] -> base64_encode l <> EmptyString.
Proof. destruct l as [|a [|b [|c r]]]; simpl; congruence. Qed.

(** * Claims *)

(** ** C2 *)

(** Claim C2: for every string that is not valid hex, [encrypt_entity_secret]
    fails with a hex-decode error, and the world it returns is the one it was
    given: no call to the RSA routine was logged and no entropy was drawn. *)
Theorem encrypt_entity_secret_invalid_hex (key : RsaPublicKey) (s : string) (w : World) :
  valid_hex s = false ->
  exists e, encrypt_entity_secret key s w = (Failed (AnyHex e), w).
Proof.
  intros H. destruct (hex_decode_err_of_invalid s H) as [e He].
  exists e. apply encrypt_hex_err; exact He.
Qed.

Lemma encrypt_entity_secret_invalid_hex_witness :
  valid_hex "zz" = false /\
  exists e, encrypt_entity_secret key_4096 "zz" sample_world = (Failed (AnyHex e), sample_world).
Proof.
  split; [reflexivity|].
  apply (encrypt_entity_secret_invalid_hex key_4096 "zz" sample_world). reflexivity.
Defined.

(** ** C10 *)

(** Claim C10: [encrypt_entity_secret] fails with a hex-decode error exactly
    when its input is not valid hex (an odd length or a non-hex character).
    The empty string is valid hex and decodes to no bytes; with a key of at
    least 66 bytes (the least size on which OAEP with SHA-256 can encrypt
    anything; the service's key has 512) its encryption succeeds: one RSA
    call, 32 bytes of entropy drawn, and a non-empty base64 text of a
    ciphertext of the key's size. *)
Theorem encrypt_entity_secret_hex_error_iff (key : RsaPublicKey) (w : World) :
  (66 <= key_size key)%nat ->
  (forall s w0, (exists e w1, encrypt_entity_secret key s w0 = (Failed (AnyHex e), w1))
                <-> valid_hex s = false)
  /\ hex_decode "" = Ok []
  /\ exists ct, encrypt_entity_secret key "" w = (Done (base64_encode ct), after_rsa_call w [] h_size)
               /\ length ct = key_size key /\ base64_encode ct <> EmptyString.
Proof.
  intros Hk. split; [|split].
  - intros s w0. split.
    + intros (e & w1 & H). destruct (valid_hex s) eqn:Hv; [|reflexivity].
      exfalso. exact (encrypt_no_hex_error_of_valid key s w0 e w1 Hv H).
    + intros Hv. destruct (hex_decode_err_of_invalid s Hv) as [e He].
      exists e, w0. apply encrypt_hex_err; exact He.
  - reflexivity.
  - eexists. split; [apply encrypt_valid; [reflexivity | simpl; lia]|].
    split; [apply be_bytes_length|].
    apply base64_encode_nonempty. intros E.
    apply (f_equal (@length Z)) in E. rewrite be_bytes_length in E. simpl in E. lia.
Qed.

Lemma encrypt_entity_secret_hex_error_iff_witness :
  (66 <= key_size key_4096)%nat /\
  exists ct, encrypt_entity_secret key_4096 "" sample_world
             = (Done (base64_encode ct), after_rsa_call sample_world [] h_size)
             /\ length ct = key_size key_4096 /\ base64_encode ct <> EmptyString.
Proof.
  assert (Hk : (66 <= key_size key_4096)%nat) by (vm_compute; lia).
  split; [exact Hk|].
  exact (proj2 (proj2 (encrypt_entity_secret_hex_error_iff key_4096 sample_world Hk))).
Defined.

(** ** Lengths of the SHA-256 and MGF1 outputs *)

Lemma round_length st kw : length (Sha256.round st kw) = length st.
Proof. destruct st as [|a [|b [|c [|d [|e [|f [|g [|h [|i r]]]]]]]]]; reflexivity. Qed.

Lemma fold_round_length l st : length (fold_left Sha256.round l st) = length st.
Proof.
  revert st. induction l as [|kw l IH]; intros st; simpl; [reflexivity|].
  rewrite IH. apply round_length.
Qed.

Lemma compress_length hv b : length (Sha256.compress hv b) = length hv.
Proof.
  unfold Sha256.compress. rewrite length_map, length_combine, fold_round_length.
  apply Nat.min_id.
Qed.

Lemma process_length n hv m : length (Sha256.process n hv m) = length hv.
Proof.
  revert hv m. induction n as [|n IH]; intros hv m; simpl; [reflexivity|].
  rewrite IH. apply compress_length.
Qed.

Lemma flat_map_bytes_of_word_length l :
  length (flat_map Sha256.bytes_of_word l) = (4 * length l)%nat.
Proof. induction l as [|x l IH]; simpl; [reflexivity|]. rewrite IH. lia. Qed.

Lemma sha256_length m : length (Sha256.sha256 m) = 32%nat.
Proof.
  unfold Sha256.sha256. rewrite flat_map_bytes_of_word_length, process_length. reflexivity.
Qed.

Lemma mgf1_stream_length seed i b : length (mgf1_stream seed i b) = (32 * b)%nat.
Proof.
  revert i. induction b as [|b IH]; intros i; simpl; [reflexivity|].
  rewrite length_app, sha256_length, IH. lia.
Qed.

Lemma mgf1_mask_covers (L : nat) : (L <= 32 * ((L + h_size - 1) / h_size))%nat.
Proof.
  unfold h_size. destruct L as [|L]; [lia|].
  replace (S L + 32 - 1)%nat with (L + 1 * 32)%nat by lia.
  rewrite Nat.div_add by lia.
  pose proof (Nat.div_mod L 32). pose proof (Nat.mod_upper_bound L 32). lia.
Qed.

Lemma mgf1_xor_length out seed : length (mgf1_xor out seed) = length out.
Proof.
  unfold mgf1_xor. rewrite length_map, length_combine, mgf1_stream_length.
  pose proof (mgf1_mask_covers (length out)). lia.
Qed.

(** ** Bytes and xor *)

Lemma xor8_range a b : 0 <= xor8 a b < 256.
Proof.
  unfold xor8. change 255 with (Z.ones 8). rewrite Z.land_ones by lia.
  apply Z.mod_pos_bound. lia.
Qed.

Lemma xor8_cancel a x : 0 <= a < 256 -> xor8 (xor8 a x) x = a.
Proof.
  intros Ha. unfold xor8. apply Z.bits_inj'. intros i Hi.
  rewrite !Z.land_spec, !Z.lxor_spec, Z.land_spec.
  change 255 with (Z.ones 8). rewrite Z.testbit_ones by lia.
  destruct (Z.ltb_spec i 8).
  - replace (0 <=? i) with true by (symmetry; apply Z.leb_le; lia).
    cbn [andb]. rewrite !andb_true_r, Z.lxor_spec, xorb_assoc, xorb_nilpotent, xorb_false_r.
    reflexivity.
  - rewrite andb_false_r, !andb_false_r. symmetry.
    rewrite <- (Z.mod_small a (2 ^ 8)) by lia. apply Z.mod_pow2_bits_high. lia.
Qed.

Lemma mgf1_xor_bytes out seed : bytes_ok (mgf1_xor out seed).
Proof.
  unfold mgf1_xor, bytes_ok. apply Forall_forall. intros x Hx.
  apply in_map_iff in Hx as [p [<- _]]. unfold is_byte. pose proof (xor8_range (fst p) (snd p)). lia.
Qed.

Lemma mgf1_xor_cancel_gen out mk :
  bytes_ok out -> (length out <= length mk)%nat ->
  map (fun p => xor8 (fst p) (snd p)) (combine (map (fun p => xor8 (fst p) (snd p)) (combine out mk)) mk)
  = out.
Proof.
  revert mk. induction out as [|a out IH]; intros mk Hb Hl; [reflexivity|].
  destruct mk as [|x mk]; [simpl in Hl; lia|].
  inversion Hb as [|? ? Ha Hr]; subst. simpl. rewrite xor8_cancel by exact Ha.
  rewrite IH by (auto; simpl in Hl; lia). reflexivity.
Qed.

Lemma mgf1_xor_cancel out seed :
  bytes_ok out -> mgf1_xor (mgf1_xor out seed) seed = out.
Proof.
  intros Hb. unfold mgf1_xor at 1. rewrite mgf1_xor_length. unfold mgf1_xor.
  apply mgf1_xor_cancel_gen; [exact Hb|].
  rewrite mgf1_stream_length. apply mgf1_mask_covers.
Qed.

(** ** Big-endian integers *)

Lemma os2ip_snoc l b : os2ip (l ++ [b]) = os2ip l * 256 + b.
Proof. unfold os2ip. rewrite fold_left_app. reflexivity. Qed.

Lemma os2ip_zero_cons l : os2ip (0 :: l) = os2ip l.
Proof. reflexivity. Qed.

Lemma os2ip_bound l : bytes_ok l -> 0 <= os2ip l < 256 ^ Z.of_nat (length l).
Proof.
  induction l as [|b l IH] using rev_ind; intros Hb; [unfold os2ip; simpl; lia|].
  apply Forall_app in Hb as [Hl Hx]. inversion Hx as [|? ? Hbb _]; subst. unfold is_byte in Hbb.
  rewrite os2ip_snoc, length_app, Nat2Z.inj_add, Z.pow_add_r by lia.
  specialize (IH Hl). simpl (Z.of_nat (length [b])). nia.
Qed.

Lemma be_bytes_os2ip l : bytes_ok l -> be_bytes (length l) (os2ip l) = l.
Proof.
  induction l as [|b l IH] using rev_ind; intros Hb; [reflexivity|].
  apply Forall_app in Hb as [Hl Hx]. inversion Hx as [|? ? Hbb _]; subst. unfold is_byte in Hbb.
  rewrite length_app, Nat.add_1_r. simpl be_bytes. rewrite os2ip_snoc.
  replace ((os2ip l * 256 + b) / 256) with (os2ip l)
    by (rewrite Z.div_add_l by lia; rewrite Z.div_small by lia; lia).
  replace ((os2ip l * 256 + b) mod 256) with b
    by (rewrite Z.add_comm, Z.mod_add by lia; rewrite Z.mod_small by lia; reflexivity).
  rewrite IH by exact Hl. reflexivity.
Qed.

Lemma os2ip_be_bytes k c : 0 <= c < 256 ^ Z.of_nat k -> os2ip (be_bytes k c) = c.
Proof.
  revert c. induction k as [|k IH]; intros c Hc; simpl be_bytes.
  - simpl in Hc. unfold os2ip. simpl. lia.
  - rewrite os2ip_snoc. rewrite Nat2Z.inj_succ, Z.pow_succ_r in Hc by lia.
    rewrite IH; [|split; [apply Z.div_pos; lia | apply Z.div_lt_upper_bound; lia]].
    pose proof (Z.div_mod c 256). lia.
Qed.

Lemma bytes_ok_inj_os2ip l1 l2 :
  bytes_ok l1 -> bytes_ok l2 -> length l1 = length l2 -> os2ip l1 = os2ip l2 -> l1 = l2.
Proof.
  intros H1 H2 Hl Ho. rewrite <- (be_bytes_os2ip l1 H1), <- (be_bytes_os2ip l2 H2), Hl, Ho.
  reflexivity.
Qed.

(** The modulus has [key_size] bytes: [256^(k-1) <= n < 256^k]. *)
Lemma key_n_bounds key :
  (2 <= key_size key)%nat ->
  256 ^ (Z.of_nat (key_size key) - 1) <= key_n key < 256 ^ Z.of_nat (key_size key).
Proof.
  intros Hk. pose proof (key_n_pos key Hk) as Hn. pose proof (key_size_Z key) as Ek.
  unfold bits in Ek. destruct (Z.eqb_spec (key_n key) 0); [lia|].
  set (L := Z.log2 (key_n key)) in *. set (q := Z.of_nat (key_size key)) in *.
  pose proof (Z.log2_spec (key_n key) Hn) as [Hlo Hhi]. fold L in Hlo, Hhi.
  pose proof (Z.log2_nonneg (key_n key)). fold L in H.
  assert (Hq : 8 * q - 8 <= L /\ L + 1 <= 8 * q).
  { rewrite Ek. pose proof (Z.div_mod (L + 1 + 7) 8). pose proof (Z.mod_pos_bound (L + 1 + 7) 8). lia. }
  replace 256 with (2 ^ 8) by reflexivity. rewrite <- !Z.pow_mul_r by lia.
  split.
  - apply Z.le_trans with (2 ^ L); [apply Z.pow_le_mono_r; lia | exact Hlo].
  - apply Z.lt_le_trans with (2 ^ Z.succ L); [exact Hhi | apply Z.pow_le_mono_r; lia].
Qed.

(** ** The encoded message *)

Lemma app_inv_same_length {A} (l1 l2 r1 r2 : list A) :
  length l1 = length l2 -> l1 ++ r1 = l2 ++ r2 -> l1 = l2 /\ r1 = r2.
Proof.
  revert l2. induction l1 as [|a l1 IH]; intros [|b l2] Hl E; simpl in *; try lia; auto.
  injection E as -> E. destruct (IH l2 ltac:(lia) E) as [-> ->]. auto.
Qed.

Lemma oaep_encode_length m seed k :
  length seed = h_size -> (length m + 66 <= k)%nat -> length (oaep_encode m seed k) = k.
Proof.
  intros Hs Hk. unfold oaep_encode. cbn [length]. rewrite length_app, !mgf1_xor_length, Hs.
  rewrite !length_app, sha256_length, repeat_length. cbn [length]. unfold h_size in *. lia.
Qed.

Lemma oaep_encode_bytes m seed k : bytes_ok (oaep_encode m seed k).
Proof.
  unfold oaep_encode, bytes_ok. constructor; [unfold is_byte; lia|].
  apply Forall_app. split; apply mgf1_xor_bytes.
Qed.

Lemma oaep_encode_seed_inj m s1 s2 k :
  length s1 = h_size -> length s2 = h_size -> bytes_ok s1 -> bytes_ok s2 ->
  oaep_encode m s1 k = oaep_encode m s2 k -> s1 = s2.
Proof.
  intros L1 L2 B1 B2 E. unfold oaep_encode in E.
  remember (Sha256.sha256 [] ++ _) as db eqn:Hdb. clear Hdb. injection E as E.
  apply app_inv_same_length in E as [Es Ed]; [|rewrite !mgf1_xor_length; congruence].
  rewrite <- (mgf1_xor_cancel s1 (mgf1_xor db s1) B1), <- (mgf1_xor_cancel s2 (mgf1_xor db s2) B2).
  rewrite Es, Ed. reflexivity.
Qed.

Lemma oaep_encode_cons m seed k : exists rest, oaep_encode m seed k = 0 :: rest.
Proof. eexists. reflexivity. Qed.

Lemma oaep_encode_lt_n key m seed :
  length seed = h_size -> (length m + 66 <= key_size key)%nat ->
  0 <= os2ip (oaep_encode m seed (key_size key)) < key_n key.
Proof.
  intros Hs Hk. pose proof (key_n_bounds key ltac:(lia)) as [Hlo _].
  pose proof (oaep_encode_length m seed (key_size key) Hs Hk) as Hl.
  pose proof (oaep_encode_bytes m seed (key_size key)) as Hb.
  destruct (oaep_encode_cons m seed (key_size key)) as [rest Er]. rewrite Er in *.
  rewrite os2ip_zero_cons. inversion Hb as [|? ? _ Hr]; subst.
  pose proof (os2ip_bound _ Hr) as Hbd. cbn [length] in Hl. rewrite <- Hl in Hlo.
  rewrite Nat2Z.inj_succ in Hlo. replace (Z.succ _ - 1) with (Z.of_nat (length rest)) in Hlo by lia.
  lia.
Qed.

(** ** The ciphertext determines the seed *)

Lemma ciphertext_seed_inj key m s1 s2 :
  rsa_injective key -> (length m + 66 <= key_size key)%nat ->
  length s1 = h_size -> length s2 = h_size -> bytes_ok s1 -> bytes_ok s2 ->
  be_bytes (key_size key) (rsa_encrypt_raw key (os2ip (oaep_encode m s1 (key_size key))))
  = be_bytes (key_size key) (rsa_encrypt_raw key (os2ip (oaep_encode m s2 (key_size key)))) ->
  s1 = s2.
Proof.
  intros Hinj Hk L1 L2 B1 B2 E.
  pose proof (key_n_bounds key ltac:(lia)) as [_ Hhi].
  pose proof (key_n_pos key ltac:(lia)) as Hn.
  pose proof (rsa_encrypt_raw_range key (os2ip (oaep_encode m s1 (key_size key))) Hn) as R1.
  pose proof (rsa_encrypt_raw_range key (os2ip (oaep_encode m s2 (key_size key))) Hn) as R2.
  apply (f_equal os2ip) in E. rewrite !os2ip_be_bytes in E by lia.
  apply Hinj in E; [|apply oaep_encode_lt_n; auto | apply oaep_encode_lt_n; auto].
  apply bytes_ok_inj_os2ip in E;
    [| apply oaep_encode_bytes | apply oaep_encode_bytes
     | rewrite !oaep_encode_length by auto; reflexivity].
  exact (oaep_encode_seed_inj m s1 s2 _ L1 L2 B1 B2 E).
Qed.

Lemma next_seed_length w : length (next_seed w) = h_size.
Proof. unfold next_seed. rewrite length_map, length_seq. reflexivity. Qed.

Lemma next_seed_bytes w : bytes_ok (next_seed w).
Proof.
  unfold next_seed, bytes_ok. apply Forall_forall. intros x Hx.
  apply in_map_iff in Hx as [i [<- _]]. unfold is_byte. apply Z.mod_pos_bound. lia.
Qed.

(** ** base64 decodes what it encodes *)

Lemma b64_val_char v : 0 <= v < 64 -> b64_val (b64_char v) = Some v.
Proof.
  intros Hv. rewrite <- (Z2Nat.id v) by lia. assert (Hn : (Z.to_nat v < 64)%nat) by lia.
  generalize (Z.to_nat v) Hn. clear Hv Hn. intros n Hn.
  do 64 (destruct n as [|n]; [reflexivity|]). lia.
Qed.

Lemma b64_char_not_pad v : 0 <= v < 64 -> b64_char v <> pad_char.
Proof.
  intros Hv E. pose proof (b64_val_char v Hv) as H. rewrite E in H. discriminate.
Qed.

Lemma lor_shiftl_add x k y :
  0 <= k -> 0 <= y < 2 ^ k -> Z.lor (Z.shiftl x k) y = x * 2 ^ k + y.
Proof.
  intros Hk Hy. rewrite <- Z.shiftl_mul_pow2 by exact Hk.
  rewrite <- Z.lxor_lor, Z.add_nocarry_lxor; [reflexivity| |];
  apply Z.bits_inj'; intros i Hi; rewrite Z.land_spec, Z.bits_0;
  destruct (Z.ltb_spec i k);
  (rewrite Z.shiftl_spec_low by lia; reflexivity) ||
  (rewrite <- (Z.mod_small y (2 ^ k)) by lia; rewrite Z.mod_pow2_bits_high by lia;
   apply andb_false_r).
Qed.

Ltac divmod_facts :=
  repeat match goal with
  | |- context [?x / ?c] =>
      lazymatch goal with
      | _ : 0 <= x mod c < c |- _ => fail
      | _ => pose proof (Z.div_mod x c ltac:(lia)); pose proof (Z.mod_pos_bound x c ltac:(lia))
      end
  | |- context [?x mod ?c] =>
      lazymatch goal with
      | _ : 0 <= x mod c < c |- _ => fail
      | _ => pose proof (Z.div_mod x c ltac:(lia)); pose proof (Z.mod_pos_bound x c ltac:(lia))
      end
  end.

Ltac dlia := divmod_facts; lia.

Ltac pow2_num :=
  try change (2 ^ 2) with 4 in *; try change (2 ^ 4) with 16 in *;
  try change (2 ^ 6) with 64 in *; try change (2 ^ 8) with 256 in *.

Lemma land_low_bits x n : 0 <= n -> Z.land x (Z.ones n) = x mod 2 ^ n.
Proof. intros Hn. apply Z.land_ones. exact Hn. Qed.

Lemma b64_v2 a b : 0 <= b < 256 ->
  Z.lor (Z.shiftl (Z.land a 3) 4) (Z.shiftr b 4) = (a mod 4) * 16 + b / 16.
Proof.
  intros Hb. change 3 with (Z.ones 2). rewrite land_low_bits by lia.
  rewrite Z.shiftr_div_pow2 by lia. rewrite lor_shiftl_add; pow2_num; dlia.
Qed.

Lemma b64_v3 b c : 0 <= c < 256 ->
  Z.lor (Z.shiftl (Z.land b 15) 2) (Z.shiftr c 6) = (b mod 16) * 4 + c / 64.
Proof.
  intros Hc. change 15 with (Z.ones 4). rewrite land_low_bits by lia.
  rewrite Z.shiftr_div_pow2 by lia. rewrite lor_shiftl_add; pow2_num; dlia.
Qed.

Lemma b64_dec0 a y : 0 <= a < 256 -> 0 <= y < 16 ->
  Z.lor (Z.shiftl (Z.shiftr a 2) 2) (Z.shiftr ((a mod 4) * 16 + y) 4) = a.
Proof.
  intros Ha Hy. rewrite !Z.shiftr_div_pow2 by lia. rewrite lor_shiftl_add; pow2_num; [dlia|dlia|].
  dlia.
Qed.

Lemma b64_dec1 a b y : 0 <= b < 256 -> 0 <= y < 4 ->
  Z.land (Z.lor (Z.shiftl ((a mod 4) * 16 + b / 16) 4) (Z.shiftr ((b mod 16) * 4 + y) 2)) 255 = b.
Proof.
  intros Hb Hy. change 255 with (Z.ones 8). rewrite land_low_bits by lia.
  rewrite Z.shiftr_div_pow2 by lia. rewrite lor_shiftl_add; pow2_num; [|dlia|].
  - replace (((a mod 4) * 16 + b / 16) * 16 + ((b mod 16) * 4 + y) / 4)
      with ((a mod 4) * 256 + b) by dlia.
    rewrite Z.add_comm, Z.mod_add, Z.mod_small; dlia.
  - dlia.
Qed.

Lemma b64_dec2 b c : 0 <= c < 256 ->
  Z.land (Z.lor (Z.shiftl ((b mod 16) * 4 + c / 64) 6) (Z.land c 63)) 255 = c.
Proof.
  intros Hc. change 63 with (Z.ones 6). change 255 with (Z.ones 8).
  rewrite !land_low_bits by lia. rewrite lor_shiftl_add; pow2_num; [|dlia|].
  - replace (((b mod 16) * 4 + c / 64) * 64 + c mod 64) with ((b mod 16) * 256 + c) by dlia.
    rewrite Z.add_comm, Z.mod_add, Z.mod_small; dlia.
  - dlia.
Qed.

Lemma b64_pad1 a : Z.shiftl (Z.land a 3) 4 = (a mod 4) * 16 + 0.
Proof.
  change 3 with (Z.ones 2). rewrite land_low_bits, Z.shiftl_mul_pow2 by lia. pow2_num. lia.
Qed.

Lemma b64_pad2 b : Z.shiftl (Z.land b 15) 2 = (b mod 16) * 4 + 0.
Proof.
  change 15 with (Z.ones 4). rewrite land_low_bits, Z.shiftl_mul_pow2 by lia. pow2_num. lia.
Qed.

Lemma base64_roundtrip_n n l :
  (length l <= n)%nat -> bytes_ok l -> base64_decode (base64_encode l) = Some l.
Proof.
  revert l. induction n as [|n IH]; intros l Hn Hb.
  { destruct l; [reflexivity | simpl in Hn; lia]. }
  destruct l as [|a [|b [|c r]]]; [reflexivity | | |].
  - inversion Hb as [|? ? Ha _]; subst. unfold is_byte in Ha.
    cbn [base64_encode base64_decode]. rewrite b64_pad1.
    assert (R1 : 0 <= Z.shiftr a 2 < 64) by (rewrite Z.shiftr_div_pow2 by lia; pow2_num; dlia).
    rewrite b64_val_char by exact R1. rewrite b64_val_char by dlia.
    destruct (ascii_dec pad_char pad_char) as [_|Hp]; [|congruence].
    rewrite b64_dec0 by lia. reflexivity.
  - inversion Hb as [|? ? Ha Hb']; subst. inversion Hb' as [|? ? Hb2 _]; subst.
    unfold is_byte in Ha, Hb2.
    cbn [base64_encode base64_decode]. rewrite b64_v2 by exact Hb2. rewrite b64_pad2.
    assert (R1 : 0 <= Z.shiftr a 2 < 64) by (rewrite Z.shiftr_div_pow2 by lia; pow2_num; dlia).
    rewrite b64_val_char by exact R1. rewrite b64_val_char by dlia.
    destruct (ascii_dec (b64_char ((b mod 16) * 4 + 0)) pad_char) as [Hp|_].
    { exfalso. refine (b64_char_not_pad ((b mod 16) * 4 + 0) _ Hp). dlia. }
    rewrite b64_val_char by dlia.
    destruct (ascii_dec pad_char pad_char) as [_|Hp]; [|congruence].
    rewrite b64_dec0 by dlia. rewrite b64_dec1 by lia. reflexivity.
  - inversion Hb as [|? ? Ha Hb']; subst. inversion Hb' as [|? ? Hb2 Hc']; subst.
    inversion Hc' as [|? ? Hc2 Hr]; subst. unfold is_byte in Ha, Hb2, Hc2.
    cbn [base64_encode base64_decode]. rewrite b64_v2 by exact Hb2. rewrite b64_v3 by exact Hc2.
    assert (R1 : 0 <= Z.shiftr a 2 < 64) by (rewrite Z.shiftr_div_pow2 by lia; pow2_num; dlia).
    assert (R4 : 0 <= Z.land c 63 < 64)
      by (change 63 with (Z.ones 6); rewrite land_low_bits by lia; pow2_num; dlia).
    rewrite b64_val_char by exact R1. rewrite b64_val_char by dlia.
    destruct (ascii_dec (b64_char ((b mod 16) * 4 + c / 64)) pad_char) as [Hp|_].
    { exfalso. refine (b64_char_not_pad ((b mod 16) * 4 + c / 64) _ Hp). dlia. }
    rewrite b64_val_char by dlia.
    destruct (ascii_dec (b64_char (Z.land c 63)) pad_char) as [Hp|_].
    { exfalso. exact (b64_char_not_pad _ R4 Hp). }
    rewrite b64_val_char by exact R4.
    rewrite IH by (auto; simpl in Hn; lia).
    rewrite b64_dec0 by dlia. rewrite b64_dec1 by dlia. rewrite b64_dec2 by lia.
    change 255 with (Z.ones 8). rewrite land_low_bits by lia. pow2_num.
    rewrite Z.mod_small by lia. reflexivity.
Qed.

Lemma base64_roundtrip l : bytes_ok l -> base64_decode (base64_encode l) = Some l.
Proof. apply (base64_roundtrip_n (length l)). lia. Qed.

Lemma done_inj {E A} (a b : A) : @Done E A a = Done b -> a = b.
Proof. intros H. injection H. auto. Qed.

Lemma some_inj {A} (a b : A) : Some a = Some b -> a = b.
Proof. intros H. injection H. auto. Qed.

Lemma rsa_injective_id600 : rsa_injective key_id600.
Proof.
  intros a b Ha Hb E. unfold rsa_encrypt_raw, modpow in E. cbn [key_e key_n key_id600 pow_mod_pos] in *.
  rewrite !Z.mod_small in E by lia. exact E.
Qed.

(** ** C3 *)

(** Claim C3, as the code has it: for a valid hex secret decoding to the bytes
    [m] and a key of [k] bytes whose raw RSA map is one-to-one (every RSA key),
    - when [length m + 66 <= k], [encrypt_entity_secret] succeeds and returns
      the base64 text of a [k]-byte ciphertext: the text is non-empty, decodes
      back to the ciphertext, and the ciphertext differs from the plaintext
      bytes; two calls whose 32-byte seeds differ return different texts;
    - otherwise it fails with the RSA error [MessageTooLong]. *)
Theorem encrypt_entity_secret_valid_hex (key : RsaPublicKey) (s : string) (m : list Z) :
  rsa_injective key -> hex_decode s = Ok m ->
  ((length m + 66 <= key_size key)%nat ->
     (forall w, exists ct,
        encrypt_entity_secret key s w = (Done (base64_encode ct), after_rsa_call w m h_size)
        /\ length ct = key_size key
        /\ base64_decode (base64_encode ct) = Some ct
        /\ base64_encode ct <> EmptyString
        /\ ct <> m)
     /\ (forall w1 w2, next_seed w1 <> next_seed w2 ->
           fst (encrypt_entity_secret key s w1) <> fst (encrypt_entity_secret key s w2)))
  /\ ((key_size key < length m + 66)%nat -> forall w,
        encrypt_entity_secret key s w = (Failed (AnyRsa MessageTooLong), after_rsa_call w m 0)).
Proof.
  intros Hinj Hm. split.
  - intros Hk. split.
    + intros w. eexists. split; [apply encrypt_valid; auto|].
      split; [apply be_bytes_length|].
      split; [apply base64_roundtrip, be_bytes_range|].
      split.
      * apply base64_encode_nonempty. intros E. apply (f_equal (@length Z)) in E.
        rewrite be_bytes_length in E. simpl in E. lia.
      * intros E. apply (f_equal (@length Z)) in E. rewrite be_bytes_length in E. lia.
    + intros w1 w2 Hne E. rewrite (encrypt_valid key s m w1 Hm Hk), (encrypt_valid key s m w2 Hm Hk) in E.
      cbn [fst] in E.
      apply done_inj in E. apply (f_equal base64_decode) in E.
      rewrite !base64_roundtrip in E by apply be_bytes_range. apply some_inj in E.
      apply Hne. apply (ciphertext_seed_inj key m); auto using next_seed_length, next_seed_bytes.
  - intros Hk w. apply encrypt_too_long; [exact Hm|].
    unfold oaep_fits, h_size. apply Nat.leb_gt. lia.
Qed.

Lemma encrypt_entity_secret_valid_hex_witness :
  rsa_injective key_id600 /\ hex_decode "74657374" = Ok [116; 101; 115; 116] /\
  (length [116; 101; 115; 116] + 66 <= key_size key_id600)%nat /\
  next_seed sample_world <> next_seed other_world /\
  fst (encrypt_entity_secret key_id600 "74657374" sample_world)
  <> fst (encrypt_entity_secret key_id600 "74657374" other_world).
Proof.
  assert (Hm : hex_decode "74657374" = Ok [116; 101; 115; 116]) by reflexivity.
  assert (Hk : (length [116; 101; 115; 116] + 66 <= key_size key_id600)%nat) by (vm_compute; lia).
  assert (Hs : next_seed sample_world <> next_seed other_world) by (vm_compute; discriminate).
  split; [exact rsa_injective_id600|]. split; [exact Hm|]. split; [exact Hk|]. split; [exact Hs|].
  exact (proj2 (proj1 (encrypt_entity_secret_valid_hex key_id600 "74657374" _
           rsa_injective_id600 Hm) Hk) sample_world other_world Hs).
Defined.

(** Counterexample to claim C3 as stated: a valid hex secret of 447 bytes and
    a key of the size the service publishes (512 bytes; only the size of the
    modulus is read before the failure). Encryption fails with
    [MessageTooLong]: OAEP with SHA-256 fits at most [k - 66] bytes. *)
Lemma encrypt_entity_secret_long_secret_fails :
  encrypt_entity_secret key_4096 (repeat_string 447 "00") sample_world
  = (Failed (AnyRsa MessageTooLong), after_rsa_call sample_world (repeat 0 447) 0).
Proof. apply encrypt_too_long; vm_compute; reflexivity. Qed.

(** ** One exchange with the service *)

Lemma try_send_response req w st b rest :
  network w = Response st b :: rest ->
  try AnyReqwest (send req) w
  = (Done (st, b), mkWorld (entropy w) (entropy_pos w) rest (log w ++ [HttpSend req])).
Proof. intros H. unfold try, send. rewrite H. reflexivity. Qed.

Lemma handle_non_success {T} (de : Json.json -> result Json.serde_error T) st b w :
  is_success st = false -> handle_response de (st, b) w = (Failed (status_error st), w).
Proof. intros H. unfold handle_response. simpl. rewrite H. reflexivity. Qed.

Lemma exchange_non_success {T} (de : Json.json -> result Json.serde_error T) req w st b rest :
  is_success st = false -> network w = Response st b :: rest ->
  bind (try AnyReqwest (send req)) (fun res => handle_response de res) w
  = (Failed (status_error st), mkWorld (entropy w) (entropy_pos w) rest (log w ++ [HttpSend req])).
Proof.
  intros Hs Hn. erewrite bind_done by (apply try_send_response; exact Hn).
  apply handle_non_success; exact Hs.
Qed.

Lemma encrypt_network key s w o w' :
  encrypt_entity_secret key s w = (o, w') -> network w' = network w.
Proof.
  destruct (hex_decode s) as [m|e] eqn:Hm.
  - destruct (oaep_fits key m) eqn:Hf.
    + rewrite (encrypt_fits key s m w Hm Hf).
      destruct (oaep_ciphertext key m (next_seed w)); intros H; injection H as _ <-; reflexivity.
    + rewrite (encrypt_too_long key s m w Hm Hf). intros H; injection H as _ <-; reflexivity.
  - rewrite (encrypt_hex_err key s w e Hm). intros H; injection H as _ <-; reflexivity.
Qed.

(** ** C4 *)

(** Claim C4: when the service answers with a status outside 2xx, each of
    the five operations fails with the status-code error carrying that status,
    whatever the body (the body is not read). For the two operations that
    first encrypt the entity secret, this is once the encryption has
    succeeded (when it fails, no request is sent at all). *)
Theorem non_success_status_error (st : Z) (b : ResponseBody) (rest : list Exchange) (w : World) :
  is_success st = false -> network w = Response st b :: rest ->
  (forall pem api_key secret, exists w',
     new pem api_key secret w = (Failed (status_error st), w'))
  /\ (forall self idempotency_key name c w1,
        encrypt_entity_secret (public_key self) (circle_entity_secret self) w = (Done c, w1) ->
        exists w', create_wallet_set self idempotency_key name w = (Failed (status_error st), w'))
  /\ (forall R (de : Json.json -> result Json.serde_error R) self idempotency_key wallet_set_id
             blockchains count c w1,
        encrypt_entity_secret (public_key self) (circle_entity_secret self) w = (Done c, w1) ->
        exists w', create_wallet de self idempotency_key wallet_set_id blockchains count w
                   = (Failed (status_error st), w'))
  /\ (forall R (de : Json.json -> result Json.serde_error R) self wallet_id query_params,
        exists w', get_wallet_balance de self wallet_id query_params w = (Failed (status_error st), w'))
  /\ (forall Rq R (ser : Rq -> Json.json) (de : Json.json -> result Json.serde_error R) self request,
        exists w', initiate_transaction ser de self request w = (Failed (status_error st), w')).
Proof.
  intros Hst Hn. split; [|split; [|split; [|split]]].
  - intros pem api_key secret. unfold new. cbv zeta.
    erewrite bind_done by (apply try_send_response; exact Hn). cbv beta.
    erewrite bind_failed by (apply handle_non_success; exact Hst). eexists; reflexivity.
  - intros self k name c w1 He. unfold create_wallet_set. cbv zeta.
    erewrite bind_done by exact He. cbv beta.
    eexists. apply exchange_non_success with (b := b) (rest := rest); [exact Hst|]. rewrite (encrypt_network _ _ _ _ _ He). exact Hn.
  - intros R de self k ws bc cnt c w1 He. unfold create_wallet. cbv zeta.
    erewrite bind_done by exact He. cbv beta.
    eexists. apply exchange_non_success with (b := b) (rest := rest); [exact Hst|]. rewrite (encrypt_network _ _ _ _ _ He). exact Hn.
  - intros R de self wid q. unfold get_wallet_balance. cbv zeta.
    eexists. apply exchange_non_success with (b := b) (rest := rest); [exact Hst | exact Hn].
  - intros Rq R ser de self req. unfold initiate_transaction. cbv zeta.
    eexists. apply exchange_non_success with (b := b) (rest := rest); [exact Hst | exact Hn].
Qed.

Lemma non_success_status_error_witness :
  is_success 400 = false /\
  exists w', create_wallet_set sample_client 7 "test_wallet_set" (answering_world 400 "garbage")
             = (Failed (status_error 400), w').
Proof.
  assert (Hs : is_success 400 = false) by reflexivity.
  split; [exact Hs|].
  destruct (non_success_status_error 400 (BodyText "garbage") [] (answering_world 400 "garbage")
              Hs eq_refl) as (_ & Hc & _).
  eapply Hc. vm_compute. reflexivity.
Defined.

(** ** Errors stay in the taxonomy *)

Lemma ec_bind {A B} (m : M AnyhowError A) (k : A -> M AnyhowError B) :
  errors_classified m -> (forall a, errors_classified (k a)) -> errors_classified (bind m k).
Proof.
  intros Hm Hk w e w'. unfold bind. destruct (m w) as [[a|e0|p] w0] eqn:E.
  - apply Hk.
  - intros H. injection H as <- _. exact (Hm w e0 w0 E).
  - discriminate.
Qed.

Lemma ec_ret {A} (a : A) : errors_classified (ret a).
Proof. intros w e w' H. discriminate. Qed.

Lemma ec_panic {A} msg : errors_classified (@panic AnyhowError A msg).
Proof. intros w e w' H. discriminate. Qed.

Lemma ec_fail {A} e : classify e <> None -> errors_classified (@fail AnyhowError A e).
Proof. intros He w e' w' H. injection H as <- _. exact He. Qed.

Lemma ec_try {E A} (conv : E -> AnyhowError) (m : M E A) :
  (forall e, classify (conv e) <> None) -> errors_classified (try conv m).
Proof.
  intros Hc w e w'. unfold try. destruct (m w) as [[a|e0|p] w0].
  - discriminate.
  - intros H. injection H as <- _. apply Hc.
  - discriminate.
Qed.

Lemma ec_reqwest {A} (m : M ReqwestError A) : errors_classified (try AnyReqwest m).
Proof. apply ec_try. intros [| |d]; discriminate. Qed.

Lemma ec_hex {A} (m : M FromHexError A) : errors_classified (try AnyHex m).
Proof. apply ec_try. intros e; discriminate. Qed.

Lemma ec_rsa {A} (m : M RsaError A) : errors_classified (try AnyRsa m).
Proof. apply ec_try. intros e; discriminate. Qed.

Lemma ec_handle {T} (de : Json.json -> result Json.serde_error T) res :
  errors_classified (handle_response de res).
Proof.
  unfold handle_response. destruct (is_success (fst res)).
  - apply ec_bind; [apply ec_reqwest | intros; apply ec_ret].
  - apply ec_fail. discriminate.
Qed.

Lemma ec_encrypt key s : errors_classified (encrypt_entity_secret key s).
Proof.
  unfold encrypt_entity_secret.
  apply ec_bind; [apply ec_hex | intros m]. apply ec_bind; [apply ec_rsa | intros; apply ec_ret].
Qed.

Lemma ec_exchange {T} (de : Json.json -> result Json.serde_error T) req :
  errors_classified (bind (try AnyReqwest (send req)) (fun res => handle_response de res)).
Proof. apply ec_bind; [apply ec_reqwest | intros; apply ec_handle]. Qed.

(** ** C5 *)

(** Claim C5: every error any of the five operations returns, whatever the
    service answers and whatever the inputs, is of one of the five kinds of
    [ErrorKind] (transport, non-2xx status with its code, undecodable body,
    malformed hex, cryptographic failure); the other variants of
    [CircleError] are never returned, and each of the five kinds does occur. *)
Theorem errors_in_five_kinds :
  (forall pem api_key secret, errors_classified (new pem api_key secret))
  /\ (forall self idempotency_key name, errors_classified (create_wallet_set self idempotency_key name))
  /\ (forall R (de : Json.json -> result Json.serde_error R) self idempotency_key wallet_set_id
             blockchains count,
        errors_classified (create_wallet de self idempotency_key wallet_set_id blockchains count))
  /\ (forall R (de : Json.json -> result Json.serde_error R) self wallet_id query_params,
        errors_classified (get_wallet_balance de self wallet_id query_params))
  /\ (forall Rq R (ser : Rq -> Json.json) (de : Json.json -> result Json.serde_error R) self request,
        errors_classified (initiate_transaction ser de self request))
  /\ (forall c, classify (AnyCircle c) <> None -> exists st, c = Error.ResponseStatusCodeError st)
  /\ fails_with_kind (create_wallet_set sample_client 7 "w") sample_world KTransport
  /\ fails_with_kind (create_wallet_set sample_client 7 "w") (answering_world 400 "{}") (KStatus 400)
  /\ fails_with_kind (create_wallet_set sample_client 7 "w") (answering_world 200 "garbage") KDecode
  /\ fails_with_kind (create_wallet_set client_bad_hex 7 "w") (answering_world 200 "{}") KHex
  /\ fails_with_kind (create_wallet_set client_small_key 7 "w") (answering_world 200 "{}") KCrypto.
Proof.
  split; [|split; [|split; [|split; [|split; [|split]]]]].
  - intros pem api_key secret. unfold new. cbv zeta.
    apply ec_bind; [apply ec_reqwest | intros res].
    apply ec_bind; [apply ec_handle | intros pkr].
    destruct (pem _); [apply ec_ret | apply ec_panic].
  - intros self k name. unfold create_wallet_set. cbv zeta.
    apply ec_bind; [apply ec_encrypt | intros c]. apply ec_exchange.
  - intros R de self k ws bc cnt. unfold create_wallet. cbv zeta.
    apply ec_bind; [apply ec_encrypt | intros c]. apply ec_exchange.
  - intros R de self wid q. unfold get_wallet_balance. cbv zeta. apply ec_exchange.
  - intros Rq R ser de self req. unfold initiate_transaction. cbv zeta. apply ec_exchange.
  - intros c Hc. destruct c; try (exfalso; apply Hc; reflexivity). eexists; reflexivity.
  - split; [vm_compute; reflexivity|]. split; [vm_compute; reflexivity|].
    split; [vm_compute; reflexivity|]. split; vm_compute; reflexivity.
Qed.

(** ** C6 *)

Lemma handle_success {T} (de : Json.json -> result Json.serde_error T) st b r w :
  is_success st = true -> response_json (ApiResponse.de de) b = Ok r ->
  handle_response de (st, b) w = (Done (ApiResponse.data r), w).
Proof. intros Hs Hr. unfold handle_response. simpl. rewrite Hs, Hr. reflexivity. Qed.

(** Claim C6: when the key-discovery call answers with a 2xx status and a
    body that decodes to a key string which, once cleaned, the PEM decoder
    rejects, [new] panics (the [unwrap] on the decoder's [Err]); it does not
    return an error value. *)
Theorem new_panics_on_undecodable_key (pem : string -> option RsaPublicKey)
  (api_key secret : string) (w : World) (st : Z) (b : ResponseBody) (rest : list Exchange)
  (pk : string) :
  is_success st = true -> network w = Response st b :: rest ->
  response_json (ApiResponse.de PublicKeyResponse.de) b
  = Ok (ApiResponse.mkApiResponse (PublicKeyResponse.mkPublicKeyResponse pk)) ->
  pem (str_replace "RSA " "" pk) = None ->
  exists w', new pem api_key secret w = (Panicked unwrap_panic_msg, w').
Proof.
  intros Hs Hn Hb Hp. unfold new. cbv zeta.
  erewrite bind_done by (apply try_send_response; exact Hn). cbv beta.
  erewrite bind_done by (apply handle_success; [exact Hs | exact Hb]).
  cbn [ApiResponse.data PublicKeyResponse.public_key]. rewrite Hp.
  eexists. reflexivity.
Qed.

Lemma new_panics_on_undecodable_key_witness :
  exists w', new pem_none "API_KEY" "74657374"
               (answering_world 200 (dquotes "{'data':{'publicKey':'garbage'}}"))
             = (Panicked unwrap_panic_msg, w').
Proof.
  apply (new_panics_on_undecodable_key pem_none "API_KEY" "74657374"
           (answering_world 200 (dquotes "{'data':{'publicKey':'garbage'}}")) 200
           (BodyText (dquotes "{'data':{'publicKey':'garbage'}}")) [] "garbage");
    vm_compute; reflexivity.
Defined.

(** ** C7 *)

(** Claim C7: the fixture body of [test_parse_wallet_set_response] parses
    into the response envelope [ApiResponse<WalletSetResponse>] with the
    [WalletSetResponse] api.rs imports: the record under [data.walletSet]
    has the name [test_wallet_set] and as id the UUID the text
    [0068d5a4-eb64-4399-8441-a9af33af80a0] denotes.  [create_wallet_set]
    answered with this body returns that payload. *)
Theorem wallet_set_fixture_decoding :
  exists r,
    response_json (ApiResponse.de WalletSetEnvelope.de) (BodyText wallet_set_fixture) = Ok r
    /\ WalletSetResponse.name (WalletSetEnvelope.wallet_set (ApiResponse.data r)) = "test_wallet_set"
    /\ Uuid.parse_str "0068d5a4-eb64-4399-8441-a9af33af80a0"
       = Some (WalletSetResponse.id (WalletSetEnvelope.wallet_set (ApiResponse.data r)))
    /\ fst (create_wallet_set sample_client 7 "test_wallet_set" (answering_world 200 wallet_set_fixture))
       = Done (ApiResponse.data r).
Proof.
  destruct (response_json (ApiResponse.de WalletSetEnvelope.de) (BodyText wallet_set_fixture)) as [r|e] eqn:E.
  - exists r. split; [reflexivity|].
    vm_compute in E. injection E as <-. split; [reflexivity|]. split; vm_compute; reflexivity.
  - vm_compute in E. discriminate E.
Qed.

(** ** C8: strings through the writer and the reader *)

Lemma string_app_assoc (a b c : string) : ((a ++ b) ++ c = a ++ (b ++ c))%string.
Proof. induction a as [|x a IH]; simpl; [reflexivity|]. rewrite IH. reflexivity. Qed.

Lemma lex_string_escape_char c Y :
  Json.lex_string (Json.escape_char c ++ Y) = Json.prepend (String c EmptyString) (Json.lex_string Y).
Proof.
  destruct c as [b0 b1 b2 b3 b4 b5 b6 b7].
  destruct b0, b1, b2, b3, b4, b5, b6, b7; reflexivity.
Qed.

Lemma lex_string_escaped s X :
  Json.lex_string ((Json.escape_str s ++ String Json.dq EmptyString) ++ X) = Ok (s, X).
Proof.
  induction s as [|c s IH]; [reflexivity|].
  cbn [Json.escape_str]. rewrite !string_app_assoc, lex_string_escape_char.
  rewrite <- string_app_assoc, IH. reflexivity.
Qed.

Lemma pv_string f k X : Json.parse_value (S f) (Json.quote k ++ X) = Ok (Json.JString k, X).
Proof. unfold Json.quote. simpl. rewrite lex_string_escaped. reflexivity. Qed.

Lemma pv_object f k Y :
  Json.parse_value (S (S f)) (String "{" (Json.quote k ++ Y)) = Json.parse_members (S f) (Json.quote k ++ Y) [].
Proof. reflexivity. Qed.

Lemma pm_next f k v k' Y acc :
  Json.parse_members (S (S f)) (Json.quote k ++ ":" ++ Json.quote v ++ "," ++ Json.quote k' ++ Y) acc
  = Json.parse_members (S f) (Json.quote k' ++ Y) (acc ++ [(k, Json.JString v)]).
Proof.
  unfold Json.quote at 1. simpl. rewrite lex_string_escaped. simpl.
  rewrite lex_string_escaped. reflexivity.
Qed.

Lemma pm_last f k v acc :
  Json.parse_members (S (S f)) (Json.quote k ++ ":" ++ Json.quote v ++ "}") acc
  = Ok (Json.JObject (acc ++ [(k, Json.JString v)]), EmptyString).
Proof.
  unfold Json.quote at 1. simpl. rewrite lex_string_escaped. simpl.
  rewrite lex_string_escaped. reflexivity.
Qed.

Lemma wsr_print r :
  WalletSetRequest.to_string r =
  String "{" (Json.quote "idempotencyKey" ++ ":" ++ Json.quote (WalletSetRequest.idempotency_key r) ++ "," ++
              Json.quote "entitySecretCipherText" ++ ":" ++ Json.quote (WalletSetRequest.entity_secret_cipher_text r) ++ "," ++
              Json.quote "name" ++ ":" ++ Json.quote (WalletSetRequest.name r) ++ "}").
Proof.
  unfold WalletSetRequest.to_string, WalletSetRequest.to_json. cbn [Json.print].
  rewrite !string_app_assoc. reflexivity.
Qed.

Lemma len_obj (T : string) : exists f, String.length (String "{" (Json.quote "idempotencyKey" ++ T)) = S (S (S (S f))).
Proof. eexists. reflexivity. Qed.

Lemma wsr_roundtrip r : WalletSetRequest.from_str (WalletSetRequest.to_string r) = Ok r.
Proof.
  destruct r as [a b c]. unfold WalletSetRequest.from_str, Json.parse. rewrite wsr_print.
  cbn [WalletSetRequest.idempotency_key WalletSetRequest.entity_secret_cipher_text WalletSetRequest.name].
  match goal with |- context [String.length (String "{" (Json.quote "idempotencyKey" ++ ?T))] =>
    destruct (len_obj T) as [f Hf]; rewrite Hf end.
  rewrite pv_object, pm_next, pm_next, pm_last. reflexivity.
Qed.

(** UUIDs through [Display] and [Deserialize]. *)


Lemma hex_val_digit_lower d i : 0 <= d < 16 -> hex_val (Json.hex_digit_lower d) i = Ok d.
Proof.
  intros Hd. rewrite <- (Z2Nat.id d) by lia. assert (Hn : (Z.to_nat d < 16)%nat) by lia.
  generalize (Z.to_nat d) Hn. clear Hd Hn. intros n Hn.
  do 16 (destruct n as [|n]; [reflexivity|]). lia.
Qed.

Lemma hex_digits_value_snoc l c :
  Uuid.hex_digits_value (l ++ [c]) =
  match Uuid.hex_digits_value l, hex_val c 0 with Some a, Ok v => Some (a * 16 + v) | _, _ => None end.
Proof. unfold Uuid.hex_digits_value. rewrite fold_left_app. reflexivity. Qed.

Lemma hex_of_value n v : 0 <= v -> Uuid.hex_digits_value (Uuid.hex_of n v) = Some (v mod 16 ^ Z.of_nat n).
Proof.
  revert v. induction n as [|n IH]; intros v Hv.
  - simpl. rewrite Z.mod_1_r. reflexivity.
  - cbn [Uuid.hex_of]. rewrite hex_digits_value_snoc.
    rewrite Z.shiftr_div_pow2 by lia. rewrite IH by (apply Z.div_pos; lia).
    change 15 with (Z.ones 4). rewrite land_low_bits by lia.
    rewrite hex_val_digit_lower by (apply Z.mod_pos_bound; lia).
    f_equal. rewrite Nat2Z.inj_succ, Z.pow_succ_r by lia.
    change (2 ^ 4) with 16.
    assert (HN : 0 < 16 ^ Z.of_nat n) by (apply Z.pow_pos_nonneg; lia).
    set (N := 16 ^ Z.of_nat n) in *.
    pose proof (Z.div_mod v 16 ltac:(lia)) as D1. pose proof (Z.mod_pos_bound v 16 ltac:(lia)).
    pose proof (Z.div_mod (v / 16) N ltac:(lia)) as D2. pose proof (Z.mod_pos_bound (v / 16) N HN).
    apply (Z.mod_unique v (16 * N) ((v / 16) / N)); [left; nia | nia].
Qed.

Lemma hex_of_length n v : length (Uuid.hex_of n v) = n.
Proof.
  revert v. induction n as [|n IH]; intros v; simpl; [reflexivity|].
  rewrite length_app, IH. simpl. lia.
Qed.

Lemma uuid_parse_layout d :
  length d = 32%nat ->
  Uuid.parse_str (string_of_list_ascii
    (firstn 8 d ++ ["-"%char] ++ firstn 4 (skipn 8 d) ++ ["-"%char] ++ firstn 4 (skipn 12 d)
     ++ ["-"%char] ++ firstn 4 (skipn 16 d) ++ ["-"%char] ++ skipn 20 d))
  = Uuid.hex_digits_value d.
Proof.
  intros Hl. do 32 (destruct d as [|? d]; [simpl in Hl; discriminate|]).
  destruct d; [|simpl in Hl; discriminate]. reflexivity.
Qed.

Lemma uuid_roundtrip u : 0 <= u < 2 ^ 128 -> Uuid.de (Json.JString (Uuid.to_string u)) = Ok u.
Proof.
  intros Hu. unfold Uuid.de, Uuid.to_string.
  rewrite uuid_parse_layout by apply hex_of_length.
  rewrite hex_of_value by lia. change (16 ^ Z.of_nat 32) with (2 ^ 128).
  rewrite Z.mod_small by lia. reflexivity.
Qed.

(** Claim C8: the request of [create_wallet_set], its idempotency key the
    hyphenated form of a UUID, is written as a JSON object with exactly the
    wire names [idempotencyKey], [entitySecretCipherText] and [name], in that
    order, each holding its field's string; reading that text back gives the
    same request, and the key read as a [Uuid] gives back the same UUID. *)
Theorem wallet_set_request_roundtrip (u : Z) (c n : string) :
  0 <= u < 2 ^ 128 ->
  let r := WalletSetRequest.mkWalletSetRequest (Uuid.to_string u) c n in
  Json.parse (WalletSetRequest.to_string r)
  = Ok (Json.JObject [("idempotencyKey", Json.JString (Uuid.to_string u));
                      ("entitySecretCipherText", Json.JString c);
                      ("name", Json.JString n)])
  /\ WalletSetRequest.from_str (WalletSetRequest.to_string r) = Ok r
  /\ Uuid.de (Json.JString (WalletSetRequest.idempotency_key r)) = Ok u.
Proof.
  intros Hu r. split; [|split].
  - unfold Json.parse. subst r. rewrite wsr_print.
    cbn [WalletSetRequest.idempotency_key WalletSetRequest.entity_secret_cipher_text WalletSetRequest.name].
    match goal with |- context [String.length (String "{" (Json.quote "idempotencyKey" ++ ?T))] =>
      destruct (len_obj T) as [f Hf]; rewrite Hf end.
    rewrite pv_object, pm_next, pm_next, pm_last. reflexivity.
  - apply wsr_roundtrip.
  - apply uuid_roundtrip. exact Hu.
Qed.

Lemma wallet_set_request_roundtrip_witness :
  (0 <= 7 < 2 ^ 128)
  /\ WalletSetRequest.from_str
       (WalletSetRequest.to_string
          (WalletSetRequest.mkWalletSetRequest (Uuid.to_string 7) "Y2lwaGVy" "test_wallet_set"))
     = Ok (WalletSetRequest.mkWalletSetRequest (Uuid.to_string 7) "Y2lwaGVy" "test_wallet_set").
Proof.
  split; [lia|].
  exact (proj1 (proj2 (wallet_set_request_roundtrip 7 "Y2lwaGVy" "test_wallet_set" ltac:(lia)))).
Defined.

(** ** C9 *)

Lemma str_replace_rsa_leading s :
  str_replace "RSA " "" ("RSA " ++ s) = str_replace "RSA " "" s.
Proof. destruct s; reflexivity. Qed.

Ltac prefix_step :=
  cbn [String.prefix append];
  match goal with
  | |- context [ascii_dec ?x ?y] =>
      destruct (ascii_dec x y) as [E|E]; [try subst y; try discriminate E|]
  end.

Lemma prefix_app_inv (p s : string) : String.prefix p s = true -> exists r, s = (p ++ r)%string.
Proof.
  revert s. induction p as [|a p IH]; intros s H; [exists s; reflexivity|].
  destruct s as [|b s]; [discriminate|]. cbn in H.
  destruct (ascii_dec a b) as [<-|]; [|discriminate].
  destruct (IH s H) as [r ->]. exists r. reflexivity.
Qed.

Lemma contains_app_r (p u v : string) : contains p (u ++ v) = false -> contains p v = false.
Proof.
  induction u as [|c u IH]; cbn; [auto|]. intros H. apply orb_false_iff in H as [_ H]. auto.
Qed.

Lemma contains_skip (p u b : string) (a : ascii) (p' : string) :
  p = String a p' -> ~ In a (list_ascii_of_string u) -> contains p (u ++ b) = contains p b.
Proof.
  intros ->. induction u as [|c u IH]; intros Hu; [reflexivity|].
  cbn [append contains]. cbn in Hu.
  replace (String.prefix (String a p') (String c (u ++ b))) with false.
  - apply IH. tauto.
  - cbn. destruct (ascii_dec a c) as [->|]; [exfalso; tauto | reflexivity].
Qed.

Lemma prefix_app_stop (p q t : string) (c : ascii) (t' : string) :
  t = String c t' -> ~ In c (list_ascii_of_string p) ->
  String.prefix p (q ++ t) = String.prefix p q.
Proof.
  intros ->. revert q. induction p as [|a p IH]; intros q Hc; [destruct q; reflexivity|].
  destruct q as [|b q]; cbn in Hc |- *.
  - destruct (ascii_dec a c) as [->|]; [exfalso; tauto | reflexivity].
  - destruct (ascii_dec a b); [apply IH; tauto | reflexivity].
Qed.

Lemma contains_app_stop (p b t : string) (c : ascii) (t' : string) :
  p <> EmptyString -> t = String c t' -> ~ In c (list_ascii_of_string p) ->
  contains p (b ++ t) = contains p b || contains p t.
Proof.
  intros Hp Ht Hc. induction b as [|x b IH].
  - destruct p; [contradiction | reflexivity].
  - pose proof (prefix_app_stop p (String x b) t c t' Ht Hc) as Hs. cbn [append] in Hs.
    cbn [append contains]. rewrite IH, Hs. apply orb_assoc.
Qed.

Lemma prefix_rsa_cross (q rest : string) :
  q <> EmptyString -> String.prefix "RSA " (q ++ "RSA " ++ rest) = String.prefix "RSA " q.
Proof.
  intros Hq. destruct q as [|a [|b [|c [|d q]]]]; [contradiction| | | |];
    repeat (prefix_step; try reflexivity).
  destruct q; reflexivity.
Qed.

Lemma replace_go_clean (x : string) :
  contains "RSA " x = false -> replace_go "RSA " "" 0 x = x.
Proof.
  induction x as [|a x IH]; intros H; [reflexivity|].
  cbn [contains] in H. apply orb_false_iff in H as [H1 H2].
  cbn [replace_go]. rewrite H1, IH by exact H2. reflexivity.
Qed.

Lemma replace_go_sep (x rest : string) :
  contains "RSA " x = false ->
  replace_go "RSA " "" 0 (x ++ "RSA " ++ rest) = (x ++ replace_go "RSA " "" 0 rest)%string.
Proof.
  induction x as [|a x IH]; intros H; [destruct rest; reflexivity|].
  cbn [contains] in H. apply orb_false_iff in H as [H1 H2].
  change (String a x ++ "RSA " ++ rest)%string with (String a (x ++ "RSA " ++ rest)).
  pose proof (prefix_rsa_cross (String a x) rest ltac:(discriminate)) as Hx.
  change (String.prefix "RSA " (String a (x ++ "RSA " ++ rest)) = String.prefix "RSA " (String a x)) in Hx.
  cbn [replace_go].
  rewrite Hx, H1, IH by exact H2. reflexivity.
Qed.

Lemma str_replace_rsa_pieces (xs : list string) :
  Forall (fun x => contains "RSA " x = false) xs ->
  str_replace "RSA " "" (String.concat "RSA " xs) = String.concat "" xs.
Proof.
  unfold str_replace. induction xs as [|x [|y ys] IH]; intros H; [reflexivity| |].
  - inversion H; subst. apply replace_go_clean. assumption.
  - inversion H as [|? ? Hx Hr]; subst.
    change (String.concat "RSA " (x :: y :: ys)) with (x ++ "RSA " ++ String.concat "RSA " (y :: ys))%string.
    rewrite replace_go_sep by exact Hx. rewrite IH by exact Hr. reflexivity.
Qed.

Lemma rsa_pieces_exist (s : string) :
  exists y ys, Forall (fun x => contains "RSA " x = false) (y :: ys)
               /\ s = String.concat "RSA " (y :: ys).
Proof.
  induction s as [|c r [y [ys [Hf ->]]]].
  - exists "", []. split; [repeat constructor | reflexivity].
  - inversion Hf as [|? ? Hy Hys]; subst.
    destruct (String.prefix "RSA " (String c y)) eqn:Hp.
    + destruct (prefix_app_inv _ _ Hp) as [y' Hy'].
      injection Hy' as -> ->.
      assert (Hc : contains "RSA " y' = false) by exact (contains_app_r "RSA " "SA " y' Hy).
      exists "", (y' :: ys). split; [repeat constructor; assumption|].
      destruct ys; reflexivity.
    + exists (String c y), ys. split.
      * constructor; [|exact Hys]. cbn [contains]. rewrite Hp, Hy. reflexivity.
      * destruct ys; reflexivity.
Qed.

(** Claim C9, as the code has it: after a 2xx key-discovery answer whose
    body gives the key string [pk], [new] hands the PEM decoder
    [pk.replace("RSA ", "")] and builds the client from the decoded key (or
    panics when the decoder fails).  That replacement removes every
    occurrence of [RSA ]: any string is a sequence of pieces free of
    [RSA ] joined by [RSA ], and the replacement returns the same pieces
    joined with nothing in between, every other character kept in order.
    So the PKCS#1 armor lines around any body free of [RSA ] become the
    [PUBLIC KEY] armor lines, and a leading [RSA ] is removed too. *)
Theorem new_replaces_rsa_token (pem : string -> option RsaPublicKey)
  (api_key secret : string) (w : World) (st : Z) (b : ResponseBody) (rest : list Exchange)
  (pk : string) :
  is_success st = true -> network w = Response st b :: rest ->
  response_json (ApiResponse.de PublicKeyResponse.de) b
  = Ok (ApiResponse.mkApiResponse (PublicKeyResponse.mkPublicKeyResponse pk)) ->
  (exists w', new pem api_key secret w
     = (match pem (str_replace "RSA " "" pk) with
        | Some k => Done (mkCircleClient "https://api.circle.com/v1/" api_key secret k)
        | None => Panicked unwrap_panic_msg
        end, w'))
  /\ (exists xs, Forall (fun x => contains "RSA " x = false) xs
                 /\ pk = String.concat "RSA " xs
                 /\ str_replace "RSA " "" pk = String.concat "" xs)
  /\ (forall xs, Forall (fun x => contains "RSA " x = false) xs ->
        str_replace "RSA " "" (String.concat "RSA " xs) = String.concat "" xs)
  /\ (forall body, contains "RSA " body = false ->
        str_replace "RSA " "" ("-----BEGIN RSA PUBLIC KEY-----" ++ body ++ "-----END RSA PUBLIC KEY-----")
        = ("-----BEGIN PUBLIC KEY-----" ++ body ++ "-----END PUBLIC KEY-----")%string)
  /\ (forall s, str_replace "RSA " "" ("RSA " ++ s) = str_replace "RSA " "" s).
Proof.
  intros Hs Hn Hb. split; [|split; [|split; [|split]]].
  - unfold new. cbv zeta.
    erewrite bind_done by (apply try_send_response; exact Hn). cbv beta.
    erewrite bind_done by (apply handle_success; [exact Hs | exact Hb]).
    cbn [ApiResponse.data PublicKeyResponse.public_key].
    destruct (pem (str_replace "RSA " "" pk)); eexists; reflexivity.
  - destruct (rsa_pieces_exist pk) as [y [ys [Hf Hpk]]].
    exists (y :: ys). split; [exact Hf|]. split; [exact Hpk|].
    rewrite Hpk. apply str_replace_rsa_pieces, Hf.
  - exact str_replace_rsa_pieces.
  - intros body Hbody.
    assert (Hmid : contains "RSA " ("PUBLIC KEY-----" ++ body ++ "-----END ") = false).
    { rewrite (contains_skip "RSA " "PUBLIC KEY-----" _ "R" "SA ") by (reflexivity || (cbn; intuition discriminate)).
      rewrite (contains_app_stop "RSA " body "-----END " "-" "----END ")
        by (discriminate || reflexivity || (cbn; intuition discriminate)).
      rewrite Hbody. reflexivity. }
    pose proof (str_replace_rsa_pieces ["-----BEGIN "; ("PUBLIC KEY-----" ++ body ++ "-----END ")%string; "PUBLIC KEY-----"])
      as H.
    cbn [String.concat] in H. rewrite !string_app_assoc in H. apply H.
    repeat constructor; exact Hmid.
  - exact str_replace_rsa_leading.
Qed.

Lemma new_replaces_rsa_token_witness :
  exists w', new (pem_exact spki_armor) "API_KEY" "74657374"
               (answering_world 200 (key_body pkcs1_armor))
             = (Done (mkCircleClient "https://api.circle.com/v1/" "API_KEY" "74657374" key_id600), w').
Proof.
  destruct (new_replaces_rsa_token (pem_exact spki_armor) "API_KEY" "74657374"
              (answering_world 200 (key_body pkcs1_armor)) 200
              (BodyText (key_body pkcs1_armor)) [] pkcs1_armor)
    as [[w' Hw] _]; [vm_compute; reflexivity .. |].
  exists w'. rewrite Hw. vm_compute. reflexivity.
Defined.

(** Against claim C9: the PKCS#1 armor has no leading [RSA ], so removing
    only a leading occurrence leaves it as it is, while [new] removes the
    [RSA ] of both armor lines: a decoder taking only the SubjectPublicKeyInfo
    armor accepts what [new] passes it. *)
Lemma new_replaces_every_rsa_token :
  strip_leading_prefix "RSA " pkcs1_armor = pkcs1_armor
  /\ str_replace "RSA " "" pkcs1_armor = spki_armor
  /\ pkcs1_armor <> spki_armor
  /\ fst (new (pem_exact spki_armor) "API_KEY" "74657374" (answering_world 200 (key_body pkcs1_armor)))
     = Done (mkCircleClient "https://api.circle.com/v1/" "API_KEY" "74657374" key_id600).
Proof.
  split; [vm_compute; reflexivity|]. split; [vm_compute; reflexivity|].
  split; [vm_compute; discriminate|]. vm_compute. reflexivity.
Qed.

(** ** C1 *)






(** ** Further properties of the code *)

Lemma hex_nibbles_byte b : 0 <= b < 256 ->
  Z.lor (Z.shiftl (Z.shiftr b 4) 4) (Z.land b 15) = b.
Proof.
  intros Hb. change 15 with (Z.ones 4). rewrite land_low_bits by lia.
  rewrite lor_shiftl_add by (try apply Z.mod_pos_bound; lia).
  rewrite Z.shiftr_div_pow2 by lia. change (2 ^ 4) with 16.
  pose proof (Z.div_mod b 16 ltac:(lia)). lia.
Qed.

Lemma hex_pairs_encode l i : bytes_ok l -> hex_pairs (hex_encode l) i = Ok l.
Proof.
  revert i. induction l as [|b l IH]; intros i Hl; [reflexivity|].
  inversion Hl as [|? ? Hb Hl']; subst. unfold is_byte in Hb.
  unfold hex_encode. cbn [flat_map app string_of_list_ascii]. rewrite hex_pairs_cons.
  rewrite !hex_val_digit_lower.
  - cbn [r_bind]. fold (hex_encode l). rewrite IH by exact Hl'. cbn [r_bind].
    rewrite hex_nibbles_byte by exact Hb. reflexivity.
  - change 15 with (Z.ones 4). rewrite land_low_bits by lia. apply Z.mod_pos_bound. lia.
  - rewrite Z.shiftr_div_pow2 by lia. change (2 ^ 4) with 16.
    split; [apply Z.div_pos; lia | apply Z.div_lt_upper_bound; lia].
Qed.

Lemma length_string_of_list_ascii_eq (l : list ascii) :
  String.length (string_of_list_ascii l) = length l.
Proof. induction l as [|c l IH]; simpl; [reflexivity|]. rewrite IH. reflexivity. Qed.

Lemma hex_encode_length l : String.length (hex_encode l) = (2 * length l)%nat.
Proof.
  unfold hex_encode. rewrite length_string_of_list_ascii_eq.
  induction l as [|b l IH]; [reflexivity|]. cbn [flat_map app length]. rewrite IH. lia.
Qed.

(** [hex::decode] reads back every byte string that [hex::encode] writes,
    and the encoded text has two characters per byte. *)
Theorem hex_encode_decode (l : list Z) :
  bytes_ok l -> hex_decode (hex_encode l) = Ok l /\ String.length (hex_encode l) = (2 * length l)%nat.
Proof.
  intros Hl. split; [|apply hex_encode_length].
  unfold hex_decode. rewrite hex_encode_length.
  replace (Nat.odd (2 * length l)) with false
    by (rewrite <- Nat.negb_even, Nat.even_mul; reflexivity).
  apply hex_pairs_encode, Hl.
Qed.

Lemma hex_val_err c i : is_hex_digit c = false -> hex_val c i = Err (InvalidHexCharacter c i).
Proof.
  unfold is_hex_digit, hex_val.
  destruct ((65 <=? byte_of_ascii c) && (byte_of_ascii c <=? 70)); [discriminate|].
  destruct ((97 <=? byte_of_ascii c) && (byte_of_ascii c <=? 102)); [discriminate|].
  destruct ((48 <=? byte_of_ascii c) && (byte_of_ascii c <=? 57)); [discriminate|].
  reflexivity.
Qed.

Lemma hex_val_range c i v : hex_val c i = Ok v -> 0 <= v < 16.
Proof.
  unfold hex_val.
  destruct (65 <=? byte_of_ascii c) eqn:A1, (byte_of_ascii c <=? 70) eqn:A2; simpl;
    try (intros H; injection H as <-; apply Z.leb_le in A1; apply Z.leb_le in A2; lia).
  all: destruct (97 <=? byte_of_ascii c) eqn:B1, (byte_of_ascii c <=? 102) eqn:B2; simpl;
    try (intros H; injection H as <-; apply Z.leb_le in B1; apply Z.leb_le in B2; lia).
  all: destruct (48 <=? byte_of_ascii c) eqn:C1, (byte_of_ascii c <=? 57) eqn:C2; simpl;
    try (intros H; injection H as <-; apply Z.leb_le in C1; apply Z.leb_le in C2; lia);
    discriminate.
Qed.

Lemma hex_pairs_first_invalid : forall n pre c post i,
  (String.length pre <= n)%nat ->
  Nat.even (String.length pre + S (String.length post)) = true ->
  forallb is_hex_digit (list_ascii_of_string pre) = true -> is_hex_digit c = false ->
  hex_pairs (pre ++ String c post) i = Err (InvalidHexCharacter c (2 * i + String.length pre)).
Proof.
  induction n as [|n IH]; intros pre c post i Hn Hev Hpre Hc.
  - destruct pre; [|simpl in Hn; lia].
    destruct post as [|d post]; [discriminate|].
    cbn [append]. rewrite hex_pairs_cons, hex_val_err by exact Hc. simpl; f_equal; f_equal; lia.
  - destruct pre as [|a [|b pre']].
    + destruct post as [|d post]; [discriminate|].
      cbn [append]. rewrite hex_pairs_cons, hex_val_err by exact Hc. simpl; f_equal; f_equal; lia.
    + cbn [append]. simpl in Hpre. rewrite andb_true_r in Hpre.
      rewrite hex_pairs_cons.
      destruct (proj1 (hex_val_ok_iff a (2 * i)) Hpre) as [va Hva]. rewrite Hva. cbn [r_bind].
      rewrite hex_val_err by exact Hc. simpl; f_equal; f_equal; lia.
    + cbn [append]. simpl in Hpre. apply andb_prop in Hpre as [Ha Hpre].
      apply andb_prop in Hpre as [Hb Hpre].
      rewrite hex_pairs_cons.
      destruct (proj1 (hex_val_ok_iff a (2 * i)) Ha) as [va Hva]. rewrite Hva. cbn [r_bind].
      destruct (proj1 (hex_val_ok_iff b (2 * i + 1)) Hb) as [vb Hvb]. rewrite Hvb. cbn [r_bind].
      rewrite (IH pre' c post (S i)).
      * simpl; f_equal; f_equal; simpl; lia.
      * simpl in Hn. lia.
      * simpl in Hev. exact Hev.
      * exact Hpre.
      * exact Hc.
Qed.

Lemma length_append_str (a b : string) : String.length (a ++ b) = (String.length a + String.length b)%nat.
Proof. induction a as [|c a IH]; simpl; [reflexivity|]. rewrite IH. reflexivity. Qed.

(** [hex::decode] checks the length first: an odd-length text is
    [OddLength] whatever characters it holds.  An even-length text with a
    non-hex character is [InvalidHexCharacter] of the first such character
    with its index. *)
Theorem hex_decode_first_invalid (s : string) :
  (Nat.odd (String.length s) = true -> hex_decode s = Err OddLength)
  /\ (forall pre c post, s = (pre ++ String c post)%string ->
        forallb is_hex_digit (list_ascii_of_string pre) = true -> is_hex_digit c = false ->
        Nat.odd (String.length s) = false ->
        hex_decode s = Err (InvalidHexCharacter c (String.length pre))).
Proof.
  split.
  - intros Ho. unfold hex_decode. rewrite Ho. reflexivity.
  - intros pre c post -> Hpre Hc Ho. unfold hex_decode. rewrite Ho.
    rewrite (hex_pairs_first_invalid (String.length pre) pre c post 0); [reflexivity | lia | | exact Hpre | exact Hc].
    rewrite length_append_str in Ho. simpl in Ho.
    rewrite <- Nat.negb_even in Ho. destruct (Nat.even _); [reflexivity | discriminate].
Qed.

Lemma hex_decode_first_invalid_witness :
  hex_decode "abc" = Err OddLength
  /\ hex_decode "7465zz" = Err (InvalidHexCharacter "z" 4).
Proof.
  split.
  - exact (proj1 (hex_decode_first_invalid "abc") eq_refl).
  - exact (proj2 (hex_decode_first_invalid "7465zz") "7465" "z"%char "z" eq_refl eq_refl eq_refl eq_refl).
Defined.

Lemma hex_pairs_length : forall n s i l, (String.length s <= n)%nat ->
  hex_pairs s i = Ok l -> length l = (String.length s / 2)%nat /\ bytes_ok l.
Proof.
  induction n as [|n IH]; intros s i l Hn H.
  - destruct s; [|simpl in Hn; lia]. simpl in H. injection H as <-. split; [reflexivity | constructor].
  - destruct s as [|a [|b rest]].
    + simpl in H. injection H as <-. split; [reflexivity | constructor].
    + simpl in H. injection H as <-. split; [reflexivity | constructor].
    + rewrite hex_pairs_cons in H.
      destruct (hex_val a (2 * i)) as [va|] eqn:Ha; [|discriminate]. cbn [r_bind] in H.
      destruct (hex_val b (2 * i + 1)) as [vb|] eqn:Hb; [|discriminate]. cbn [r_bind] in H.
      destruct (hex_pairs rest (S i)) as [tl|] eqn:Ht; [|discriminate]. cbn [r_bind] in H.
      apply hex_val_range in Ha. apply hex_val_range in Hb.
      assert (Hbyte : is_byte (Z.lor (Z.shiftl va 4) vb))
        by (unfold is_byte; rewrite lor_shiftl_add by lia; change (2 ^ 4) with 16; lia).
      injection H as <-.
      destruct (IH rest (S i) tl ltac:(simpl in Hn; lia) Ht) as [Hl Hbt].
      split.
      * cbn [length String.length]. rewrite Hl.
        replace (S (S (String.length rest))) with (1 * 2 + String.length rest)%nat by lia.
        rewrite Nat.div_add_l by lia. reflexivity.
      * constructor; [exact Hbyte | exact Hbt].
Qed.

(** What [hex::decode] accepts has even length; it yields one byte, in
    [0, 256), per two characters. *)
Theorem hex_decode_length (s : string) (l : list Z) :
  hex_decode s = Ok l ->
  Nat.even (String.length s) = true /\ (2 * length l)%nat = String.length s /\ bytes_ok l.
Proof.
  unfold hex_decode. destruct (Nat.odd (String.length s)) eqn:Ho; [discriminate|].
  intros H. destruct (hex_pairs_length _ s 0 l (le_n _) H) as [Hl Hb].
  assert (He : Nat.even (String.length s) = true)
    by (rewrite <- Nat.negb_odd, Ho; reflexivity).
  split; [exact He|]. split; [|exact Hb].
  rewrite Hl. apply Nat.even_spec in He as [k Hk]. rewrite Hk.
  rewrite (Nat.mul_comm 2 k), Nat.div_mul by lia. lia.
Qed.

Lemma hex_decode_length_witness :
  hex_decode "74657374" = Ok [116; 101; 115; 116]
  /\ (2 * length [116; 101; 115; 116])%nat = String.length "74657374".
Proof.
  assert (H : hex_decode "74657374" = Ok [116; 101; 115; 116]) by (vm_compute; reflexivity).
  split; [exact H|]. exact (proj1 (proj2 (hex_decode_length _ _ H))).
Defined.


Lemma base64_encode_length_n n l :
  (length l <= n)%nat -> String.length (base64_encode l) = (4 * ((length l + 2) / 3))%nat.
Proof.
  revert l. induction n as [|n IH]; intros l Hn.
  - destruct l; [reflexivity | simpl in Hn; lia].
  - destruct l as [|a [|b [|c r]]]; [reflexivity | reflexivity | reflexivity |].
    cbn [base64_encode String.length]. rewrite IH by (simpl in Hn; lia).
    cbn [length].
    replace (S (S (S (length r))) + 2)%nat with (1 * 3 + (length r + 2))%nat by lia.
    rewrite Nat.div_add_l by lia. lia.
Qed.

(** When the secret fits the key, the ciphertext [encrypt_entity_secret]
    returns is the base64 text of exactly [key_size] bytes: its length is
    [4 * ceil(key_size / 3)] whatever the secret's length (684 characters
    for a 4096-bit key). *)
Theorem encrypt_entity_secret_output_length (key : RsaPublicKey) (s : string) (m : list Z) (w : World) :
  hex_decode s = Ok m -> (length m + 66 <= key_size key)%nat ->
  exists c, fst (encrypt_entity_secret key s w) = Done c
            /\ String.length c = (4 * ((key_size key + 2) / 3))%nat.
Proof.
  intros Hm Hk. rewrite (encrypt_valid key s m w Hm Hk). cbn [fst].
  eexists. split; [reflexivity|].
  rewrite (base64_encode_length_n _ _ (le_n _)), be_bytes_length. reflexivity.
Qed.

Lemma encrypt_entity_secret_output_length_witness :
  hex_decode "74657374" = Ok [116; 101; 115; 116]
  /\ (length [116; 101; 115; 116] + 66 <= key_size key_4096)%nat
  /\ exists c, fst (encrypt_entity_secret key_4096 "74657374" sample_world) = Done c
               /\ String.length c = 684%nat.
Proof.
  assert (Hm : hex_decode "74657374" = Ok [116; 101; 115; 116]) by (vm_compute; reflexivity).
  assert (Hk : (length [116; 101; 115; 116] + 66 <= key_size key_4096)%nat) by (vm_compute; lia).
  split; [exact Hm|]. split; [exact Hk|].
  destruct (encrypt_entity_secret_output_length key_4096 "74657374" _ sample_world Hm Hk) as [c [Hc Hl]].
  exists c. split; [exact Hc|]. rewrite Hl. vm_compute. reflexivity.
Defined.


Lemma existsb_eqb_notin k names : ~ In k names -> existsb (String.eqb k) names = false.
Proof.
  intros H. apply not_true_iff_false. intros E. apply existsb_exists in E as [x [Hx Ex]].
  apply String.eqb_eq in Ex. subst. contradiction.
Qed.

Lemma collect_fields_unknown names e1 e2 seen :
  Forall (fun p => ~ In (fst p) names) e1 ->
  Json.collect_fields names (e1 ++ e2) seen = Json.collect_fields names e2 seen.
Proof.
  revert seen. induction e1 as [|[k x] e1 IH]; intros seen H; [reflexivity|].
  inversion H as [|? ? Hk H1]; subst. cbn [app Json.collect_fields].
  rewrite existsb_eqb_notin by exact Hk. apply IH, H1.
Qed.

Lemma collect_fields_none names e seen :
  Forall (fun p => ~ In (fst p) names) e -> Json.collect_fields names e seen = Ok seen.
Proof. intros H. rewrite <- (app_nil_r e). rewrite collect_fields_unknown by exact H. reflexivity. Qed.

Lemma collect_fields_skip names e1 k v e2 seen :
  ~ In k names ->
  Json.collect_fields names (e1 ++ (k, v) :: e2) seen = Json.collect_fields names (e1 ++ e2) seen.
Proof.
  revert seen. induction e1 as [|[k1 x] e1 IH]; intros seen Hk.
  - cbn [app Json.collect_fields]. rewrite existsb_eqb_notin by exact Hk. reflexivity.
  - cbn [app Json.collect_fields]. destruct (existsb (String.eqb k1) names); [|apply IH, Hk].
    destruct (existsb _ seen); [reflexivity|]. apply IH, Hk.
Qed.

Lemma struct_fields_skip what names e1 k v e2 :
  ~ In k names ->
  Json.struct_fields what names (Json.JObject (e1 ++ (k, v) :: e2))
  = Json.struct_fields what names (Json.JObject (e1 ++ e2)).
Proof. intros Hk. unfold Json.struct_fields. rewrite collect_fields_skip by exact Hk. reflexivity. Qed.

Lemma forall_not_data (e : list (string * Json.json)) :
  Forall (fun p => fst p <> "data") e -> Forall (fun p => ~ In (fst p) ["data"]) e.
Proof.
  intros H. eapply Forall_impl; [|exact H]. intros [k x] Hk Hin. simpl in *.
  destruct Hin as [E|[]]. congruence.
Qed.

Lemma collect_fields_dup_after names k mid v' post seen :
  In k names -> existsb (fun p => String.eqb (fst p) k) seen = true ->
  exists e, Json.collect_fields names (mid ++ (k, v') :: post) seen = Err e.
Proof.
  intros Hk. revert seen. induction mid as [|[k1 x] mid IH]; intros seen Hs.
  - exists (Json.DuplicateField k). cbn [app Json.collect_fields].
    rewrite (proj2 (existsb_exists _ _) (ex_intro _ k (conj Hk (String.eqb_refl k)))), Hs.
    reflexivity.
  - cbn [app Json.collect_fields].
    destruct (existsb (String.eqb k1) names); [|exact (IH seen Hs)].
    destruct (existsb (fun p => String.eqb (fst p) k1) seen); [eexists; reflexivity|].
    apply IH. rewrite existsb_app, Hs. reflexivity.
Qed.

Lemma collect_fields_dup names k pre v mid v' post seen :
  In k names ->
  exists e, Json.collect_fields names (pre ++ (k, v) :: mid ++ (k, v') :: post) seen = Err e.
Proof.
  intros Hk. revert seen. induction pre as [|[k1 x] pre IH]; intros seen.
  - cbn [app Json.collect_fields].
    rewrite (proj2 (existsb_exists _ _) (ex_intro _ k (conj Hk (String.eqb_refl k)))).
    destruct (existsb (fun p => String.eqb (fst p) k) seen); [eexists; reflexivity|].
    apply collect_fields_dup_after; [exact Hk|].
    rewrite existsb_app. cbn. rewrite String.eqb_refl, orb_true_r. reflexivity.
  - cbn [app Json.collect_fields].
    destruct (existsb (String.eqb k1) names); [|apply IH].
    destruct (existsb (fun p => String.eqb (fst p) k1) seen); [eexists; reflexivity|apply IH].
Qed.

(** The payload of the [ApiResponse] envelope is read from the single
    [data] key: other keys are ignored, a missing [data] is the error
    [missing field `data`], and an object with two or more [data] keys,
    wherever they stand, fails. *)
Theorem api_response_data_field {T} (de_T : Json.json -> result Json.serde_error T) :
  (forall (e1 e2 : list (string * Json.json)) (v : Json.json),
     Forall (fun p => fst p <> "data") e1 -> Forall (fun p => fst p <> "data") e2 ->
     ApiResponse.de de_T (Json.JObject (e1 ++ ("data", v) :: e2))
     = match de_T v with Ok x => Ok (ApiResponse.mkApiResponse x) | Err e => Err e end)
  /\ (forall e : list (string * Json.json), Forall (fun p => fst p <> "data") e ->
        ApiResponse.de de_T (Json.JObject e) = Err (Json.MissingField "data"))
  /\ (forall pre mid post v v',
        exists e, ApiResponse.de de_T (Json.JObject (pre ++ ("data", v) :: mid ++ ("data", v') :: post))
                  = Err e).
Proof.
  split; [|split].
  - intros e1 e2 v H1 H2. apply forall_not_data in H1. apply forall_not_data in H2.
    unfold ApiResponse.de, Json.struct_fields.
    rewrite collect_fields_unknown by exact H1. cbn [Json.collect_fields existsb app].
    replace (String.eqb "data" "data") with true by reflexivity. cbn [orb].
    rewrite collect_fields_none by exact H2. reflexivity.
  - intros e H. apply forall_not_data in H.
    unfold ApiResponse.de, Json.struct_fields.
    rewrite collect_fields_none by exact H. reflexivity.
  - intros pre mid post v v'.
    destruct (collect_fields_dup ["data"] "data" pre v mid v' post [] (or_introl eq_refl)) as [e E].
    exists e. unfold ApiResponse.de, Json.struct_fields. rewrite E. reflexivity.
Qed.

Lemma api_response_data_field_witness :
  Forall (fun p => fst p <> "data") [("requestId", Json.JNull)]
  /\ ApiResponse.de PublicKeyResponse.de
       (Json.JObject ([("requestId", Json.JNull)] ++
                      ("data", Json.JObject [("publicKey", Json.JString "k")]) :: []))
     = match PublicKeyResponse.de (Json.JObject [("publicKey", Json.JString "k")]) with
       | Ok x => Ok (ApiResponse.mkApiResponse x) | Err e => Err e end
  /\ ApiResponse.de PublicKeyResponse.de (Json.JObject [("requestId", Json.JNull)])
     = Err (Json.MissingField "data").
Proof.
  assert (H1 : Forall (fun p => fst p <> "data") [("requestId", Json.JNull)])
    by (constructor; [simpl; discriminate | constructor]).
  split; [exact H1|]. split.
  - exact (proj1 (api_response_data_field PublicKeyResponse.de) [("requestId", Json.JNull)] []
                  (Json.JObject [("publicKey", Json.JString "k")]) H1 (Forall_nil _)).
  - exact (proj1 (proj2 (api_response_data_field PublicKeyResponse.de)) _ H1).
Defined.

(** Keys other than the five field names do not change how a
    [WalletSetResponse] or a [WalletSetRequest] is read. *)
Theorem wallet_set_unknown_keys_ignored (e1 e2 : list (string * Json.json)) (k : string) (v : Json.json) :
  ~ In k WalletSetResponse.fields ->
  WalletSetResponse.de (Json.JObject (e1 ++ (k, v) :: e2)) = WalletSetResponse.de (Json.JObject (e1 ++ e2)).
Proof. intros Hk. unfold WalletSetResponse.de. rewrite struct_fields_skip by exact Hk. reflexivity. Qed.

Lemma wallet_set_unknown_keys_ignored_witness :
  ~ In "requestId" WalletSetResponse.fields
  /\ WalletSetResponse.de (Json.JObject ([("name", Json.JString "n")] ++ ("requestId", Json.JNull) :: []))
     = WalletSetResponse.de (Json.JObject ([("name", Json.JString "n")] ++ [])).
Proof.
  assert (Hk : ~ In "requestId" WalletSetResponse.fields)
    by (unfold WalletSetResponse.fields; simpl; intuition discriminate).
  split; [exact Hk|]. exact (wallet_set_unknown_keys_ignored _ _ _ _ Hk).
Defined.


Lemma handle_response_world {T} (de : Json.json -> result Json.serde_error T) res w :
  snd (handle_response de res w) = w.
Proof.
  unfold handle_response. destruct (is_success (fst res)); [|reflexivity].
  unfold bind, try, of_result. destruct (response_json _ _); reflexivity.
Qed.

Lemma send_world req w :
  snd (try AnyReqwest (send req) w) = after_send w req.
Proof. unfold try, send, after_send. destruct (network w) as [|[|st b] rest]; reflexivity. Qed.

Lemma exchange_world {T} (de : Json.json -> result Json.serde_error T) req w :
  snd (bind (try AnyReqwest (send req)) (fun res => handle_response de res) w) = after_send w req.
Proof.
  rewrite <- send_world. unfold bind at 1.
  destruct (try AnyReqwest (send req) w) as [[r|e|p] w1]; try reflexivity.
  apply handle_response_world.
Qed.

(** [CircleClient::new] sends one request, the GET of the key endpoint with
    the [Content-Type: application/json] and bearer headers; it consumes
    one answer of the service and no randomness, and calls no encryption,
    whatever its outcome (a client, an error, or the panic of [unwrap]). *)
Theorem new_sends_one_request (pem : string -> option RsaPublicKey) (api_key secret : string) (w : World) :
  snd (new pem api_key secret w) = after_send w (public_key_request api_key).
Proof.
  unfold new. cbv zeta. unfold public_key_request. rewrite <- send_world.
  unfold bind at 1.
  destruct (try AnyReqwest (send _) w) as [[r|e|p] w1]; try reflexivity.
  unfold bind. pose proof (handle_response_world PublicKeyResponse.de r w1) as Hw.
  destruct (handle_response PublicKeyResponse.de r w1) as [[x|e|p] w2]; cbn [snd] in Hw; subst w2;
    try reflexivity.
  match goal with |- context [pem ?x] => destruct (pem x) end; reflexivity.
Qed.

(** [get_wallet_balance] and [initiate_transaction] each send one request
    (for the balance, a GET of [w3s/wallets/<id>/balances] with the bearer
    header and the query parameters), consume one answer, and draw no
    randomness, whatever their outcome. *)
Theorem read_ops_send_one_request {R Rq} (de : Json.json -> result Json.serde_error R)
  (ser : Rq -> Json.json) (self : CircleClient) (wallet_id : Z) (query_params : list (string * string))
  (request : Rq) (w : World) :
  snd (get_wallet_balance de self wallet_id query_params w)
  = after_send w (balance_request self wallet_id query_params)
  /\ snd (initiate_transaction ser de self request w)
     = after_send w (post_json (base_url self ++ "w3s/developer/transactions/transfer")
                      (ser request) (api_key self)).
Proof. split; apply exchange_world. Qed.

(** When the entity secret is not hexadecimal, [create_wallet_set] and
    [create_wallet] fail with the hex error and leave the world as it was:
    no request, no answer consumed, no randomness, no RSA call. *)
Theorem create_ops_bad_hex_secret {R} (de_response : Json.json -> result Json.serde_error R)
  (self : CircleClient) (idempotency_key wallet_set_id : Z) (name : string)
  (blockchains : list string) (count : Z) (e : FromHexError) (w : World) :
  hex_decode (circle_entity_secret self) = Err e ->
  create_wallet_set self idempotency_key name w = (Failed (AnyHex e), w)
  /\ create_wallet de_response self idempotency_key wallet_set_id blockchains count w
     = (Failed (AnyHex e), w).
Proof.
  intros H. unfold create_wallet_set, create_wallet, bind.
  rewrite (encrypt_hex_err _ _ w e H). split; reflexivity.
Qed.

(** When the decoded secret is too long for the key (more than the key
    size less 66 bytes), both create operations fail with [MessageTooLong]
    after the one RSA call, without drawing randomness or sending a request. *)
Theorem create_ops_secret_too_long {R} (de_response : Json.json -> result Json.serde_error R)
  (self : CircleClient) (idempotency_key wallet_set_id : Z) (name : string)
  (blockchains : list string) (count : Z) (m : list Z) (w : World) :
  hex_decode (circle_entity_secret self) = Ok m ->
  (key_size (public_key self) < length m + 66)%nat ->
  create_wallet_set self idempotency_key name w
  = (Failed (AnyRsa MessageTooLong), after_rsa_call w m 0)
  /\ create_wallet de_response self idempotency_key wallet_set_id blockchains count w
     = (Failed (AnyRsa MessageTooLong), after_rsa_call w m 0).
Proof.
  intros H Hk. assert (Hf : oaep_fits (public_key self) m = false)
    by (unfold oaep_fits, h_size; apply Nat.leb_gt; lia).
  unfold create_wallet_set, create_wallet, bind.
  rewrite (encrypt_too_long _ _ m w H Hf). split; reflexivity.
Qed.

Lemma create_wallet_set_world self k name m w :
  hex_decode (circle_entity_secret self) = Ok m ->
  (length m + 66 <= key_size (public_key self))%nat ->
  snd (create_wallet_set self k name w)
  = after_send (after_rsa_call w m h_size)
      (wallet_set_request self k name
         (base64_encode (be_bytes (key_size (public_key self))
            (rsa_encrypt_raw (public_key self)
               (os2ip (oaep_encode m (next_seed w) (key_size (public_key self)))))))).
Proof.
  intros H Hk. unfold create_wallet_set. cbv zeta. unfold bind at 1.
  rewrite (encrypt_valid _ _ m w H Hk). unfold ret.
  apply exchange_world.
Qed.

(** Two [create_wallet_set] calls in a row on a client whose secret fits
    the key log exactly the two RSA calls and the two requests, in order.
    The calls draw two 32-byte seeds; when the seeds differ (and the key's
    RSA map is injective), the two requests carry different
    [entitySecretCipherText] values. *)
Theorem create_wallet_set_twice (self : CircleClient) (k1 k2 : Z) (n1 n2 : string)
  (m : list Z) (w : World) :
  hex_decode (circle_entity_secret self) = Ok m ->
  (length m + 66 <= key_size (public_key self))%nat ->
  exists c1 c2,
    log (snd (create_wallet_set self k2 n2 (snd (create_wallet_set self k1 n1 w))))
    = log w ++ [RsaEncryptCall m; HttpSend (wallet_set_request self k1 n1 c1);
                RsaEncryptCall m; HttpSend (wallet_set_request self k2 n2 c2)]
    /\ (rsa_injective (public_key self) ->
        map (fun i => entropy w (entropy_pos w + i)%nat mod 256) (seq 0 h_size)
        <> map (fun i => entropy w (entropy_pos w + h_size + i)%nat mod 256) (seq 0 h_size) ->
        c1 <> c2).
Proof.
  intros H Hk.
  rewrite (create_wallet_set_world self k2 n2 m _ H Hk).
  rewrite (create_wallet_set_world self k1 n1 m w H Hk).
  eexists; eexists; split.
  - unfold after_send, after_rsa_call; cbn [log]. rewrite <- !app_assoc. reflexivity.
  - intros Hinj Hne E. apply (f_equal base64_decode) in E.
    rewrite !base64_roundtrip in E by apply be_bytes_range. apply some_inj in E.
    apply (ciphertext_seed_inj _ m) in E; auto using next_seed_length, next_seed_bytes.
Qed.

Lemma create_wallet_set_twice_witness :
  exists c1 c2,
    log (snd (create_wallet_set sample_client 2 "a" (snd (create_wallet_set sample_client 1 "a" sample_world))))
    = log sample_world ++ [RsaEncryptCall [116; 101; 115; 116];
         HttpSend (wallet_set_request sample_client 1 "a" c1);
         RsaEncryptCall [116; 101; 115; 116];
         HttpSend (wallet_set_request sample_client 2 "a" c2)]
    /\ c1 <> c2.
Proof.
  assert (Hk : (length [116; 101; 115; 116] + 66 <= key_size (public_key sample_client))%nat)
    by (apply Nat.leb_le; vm_compute; reflexivity).
  destruct (create_wallet_set_twice sample_client 1 2 "a" "a" [116; 101; 115; 116] sample_world
              eq_refl Hk) as [c1 [c2 [Hl Hi]]].
  exists c1, c2. split; [exact Hl|].
  apply Hi; [exact rsa_injective_id600|].
  intros E. vm_compute in E. discriminate E.
Defined.

Lemma create_ops_bad_hex_secret_witness :
  hex_decode (circle_entity_secret (mkCircleClient "https://api.circle.com/v1/" "API_KEY" "zz" key_id600))
    = Err (InvalidHexCharacter "z" 0)
  /\ create_wallet_set (mkCircleClient "https://api.circle.com/v1/" "API_KEY" "zz" key_id600) 1 "a" sample_world
     = (Failed (AnyHex (InvalidHexCharacter "z" 0)), sample_world)
  /\ create_wallet Json.de_string (mkCircleClient "https://api.circle.com/v1/" "API_KEY" "zz" key_id600)
       1 2 ["ETH-SEPOLIA"] 1 sample_world
     = (Failed (AnyHex (InvalidHexCharacter "z" 0)), sample_world).
Proof.
  assert (H : hex_decode "zz" = Err (InvalidHexCharacter "z" 0)) by reflexivity.
  split; [exact H|].
  exact (create_ops_bad_hex_secret Json.de_string
           (mkCircleClient "https://api.circle.com/v1/" "API_KEY" "zz" key_id600)
           1 2 "a" ["ETH-SEPOLIA"] 1 _ sample_world H).
Defined.

Lemma create_ops_secret_too_long_witness :
  hex_decode (circle_entity_secret (mkCircleClient "https://api.circle.com/v1/" "API_KEY" "74657374" key_512))
    = Ok [116; 101; 115; 116]
  /\ (key_size key_512 < length [116; 101; 115; 116] + 66)%nat
  /\ create_wallet_set (mkCircleClient "https://api.circle.com/v1/" "API_KEY" "74657374" key_512) 1 "a" sample_world
     = (Failed (AnyRsa MessageTooLong), after_rsa_call sample_world [116; 101; 115; 116] 0)
  /\ create_wallet Json.de_string (mkCircleClient "https://api.circle.com/v1/" "API_KEY" "74657374" key_512)
       1 2 ["ETH-SEPOLIA"] 1 sample_world
     = (Failed (AnyRsa MessageTooLong), after_rsa_call sample_world [116; 101; 115; 116] 0).
Proof.
  assert (H : hex_decode "74657374" = Ok [116; 101; 115; 116]) by reflexivity.
  assert (Hk : (key_size key_512 < length [116; 101; 115; 116] + 66)%nat)
    by (apply Nat.ltb_lt; vm_compute; reflexivity).
  split; [exact H|]. split; [exact Hk|].
  exact (create_ops_secret_too_long Json.de_string
           (mkCircleClient "https://api.circle.com/v1/" "API_KEY" "74657374" key_512)
           1 2 "a" ["ETH-SEPOLIA"] 1 _ sample_world H Hk).
Defined.

Lemma hex_encode_decode_witness :
  bytes_ok [116; 101; 115; 116]
  /\ hex_decode (hex_encode [116; 101; 115; 116]) = Ok [116; 101; 115; 116]
  /\ String.length (hex_encode [116; 101; 115; 116]) = (2 * length [116; 101; 115; 116])%nat.
Proof.
  assert (H : bytes_ok [116; 101; 115; 116]) by (repeat constructor; unfold is_byte; lia).
  split; [exact H|]. exact (hex_encode_decode _ H).
Defined.


Lemma collect_results_ok {E A} (l : list (result E A)) xs :
  Example.collect_results l = Ok xs <-> l = map Ok xs.
Proof.
  revert xs. induction l as [|[a|e] r IH]; intros xs; cbn.
  - split; [intros H; injection H as <-; reflexivity | destruct xs; [reflexivity | discriminate]].
  - destruct (Example.collect_results r) as [t|e] eqn:Er; cbn.
    + split.
      * intros H. injection H as <-. cbn. f_equal. apply IH. reflexivity.
      * destruct xs as [|x xs]; [discriminate|]. cbn. intros H. injection H as -> Hr.
        apply IH in Hr. congruence.
    + split; [discriminate|]. destruct xs as [|x xs]; [discriminate|]. cbn. intros H.
      injection H as -> Hr. apply IH in Hr. discriminate.
  - split; [discriminate|]. destruct xs as [|x xs]; [discriminate|]. cbn. discriminate.
Qed.

Lemma collect_results_err {E A} (l : list (result E A)) e :
  Example.collect_results l = Err e <-> exists pre post, l = map Ok pre ++ Err e :: post.
Proof.
  induction l as [|[a|e'] r IH]; cbn.
  - split; [discriminate|]. intros [pre [post H]]. destruct pre; discriminate.
  - destruct (Example.collect_results r) as [t|e''] eqn:Er; cbn.
    + split; [discriminate|]. intros [pre [post H]].
      destruct pre as [|x pre]; [discriminate|]. cbn in H. injection H as -> Hr.
      assert (Hx : Ok t = Err e) by (apply IH; eauto). discriminate Hx.
    + split.
      * intros H. injection H as ->. destruct (proj1 IH eq_refl) as [pre [post ->]].
        exists (a :: pre), post. reflexivity.
      * intros [pre [post H]]. destruct pre as [|x pre]; [discriminate|].
        cbn in H. injection H as -> Hr. apply IH. eauto.
  - split.
    + intros H. injection H as ->. exists [], r. reflexivity.
    + intros [pre [post H]]. destruct pre as [|x pre]; cbn in H; [congruence | discriminate].
Qed.

(** Collecting the balance results into [Result<Vec<_>, _>], as [run] of
    the example does: the whole is [Ok] exactly when every element is [Ok],
    with the values in order, and otherwise it is the first [Err] of the
    list. *)
Theorem collect_results_first_error {E A} (l : list (result E A)) :
  (forall xs, Example.collect_results l = Ok xs <-> l = map Ok xs)
  /\ (forall e, Example.collect_results l = Err e <-> exists pre post, l = map Ok pre ++ Err e :: post).
Proof. split; [apply collect_results_ok | apply collect_results_err]. Qed.

Lemma handle_response_no_panic {T} (de : Json.json -> result Json.serde_error T) res w p :
  fst (handle_response de res w) <> Panicked p.
Proof.
  unfold handle_response. destruct (is_success (fst res)); [|discriminate].
  unfold bind, try, of_result, ret, fail. destruct (response_json _ _); discriminate.
Qed.

Lemma settle_get_wallet_balance {R} (de : Json.json -> result Json.serde_error R) self id q w :
  exists r, Example.settle (get_wallet_balance de self id q) w
            = (Done r, after_send w (balance_request self id q)).
Proof.
  pose proof (exchange_world de (balance_request self id q) w) as Hw.
  assert (Hp : forall p, fst (bind (try AnyReqwest (send (balance_request self id q)))
                                 (fun res => handle_response de res) w) <> Panicked p).
  { intros p. unfold bind at 1, try at 1, send at 1.
    destruct (network w) as [|[|st b] rest]; try discriminate.
    apply handle_response_no_panic. }
  unfold Example.settle. change (get_wallet_balance de self id q w)
    with (bind (try AnyReqwest (send (balance_request self id q))) (fun res => handle_response de res) w).
  destruct (bind _ _ w) as [[a|e|p] w'] eqn:E; cbn [snd] in Hw; subst w'.
  - eauto.
  - eauto.
  - exfalso. apply (Hp p). reflexivity.
Qed.

Lemma join_all_balances {R} (de : Json.json -> result Json.serde_error R) self ids q w :
  exists rs, Example.join_all (map (fun id => get_wallet_balance de self id q) ids) w
    = (Done rs, mkWorld (entropy w) (entropy_pos w) (skipn (length ids) (network w))
                  (log w ++ map (fun id => HttpSend (balance_request self id q)) ids))
    /\ length rs = length ids.
Proof.
  revert w. induction ids as [|id ids IH]; intros w; cbn [map Example.join_all].
  - exists []. destruct w. cbn. rewrite app_nil_r. split; reflexivity.
  - destruct (settle_get_wallet_balance de self id q w) as [r Hr].
    destruct (IH (after_send w (balance_request self id q))) as [rs [Hrs Hl]].
    exists (r :: rs). unfold bind at 1. rewrite Hr. unfold bind. rewrite Hrs. unfold ret.
    split; [|cbn; congruence].
    unfold after_send. cbn. rewrite <- app_assoc. destruct (network w); [destruct (length ids)|]; reflexivity.
Qed.

(** The balance phase of the example's [run] sends the balance request of
    every wallet, in order, even after one of them has failed ([join_all]
    awaits them all): it consumes one answer per wallet and no randomness.
    When it succeeds it returns one balance per wallet. *)
Theorem fetch_balances_sends_every_request {R} (de : Json.json -> result Json.serde_error R)
  (circle_client : CircleClient) (wallet_ids : list Z) (query_params : list (string * string)) (w : World) :
  snd (Example.fetch_balances de circle_client wallet_ids query_params w)
  = mkWorld (entropy w) (entropy_pos w) (skipn (length wallet_ids) (network w))
      (log w ++ map (fun id => HttpSend (balance_request circle_client id query_params)) wallet_ids)
  /\ (forall bs, fst (Example.fetch_balances de circle_client wallet_ids query_params w) = Done bs ->
        length bs = length wallet_ids).
Proof.
  destruct (join_all_balances de circle_client wallet_ids query_params w) as [rs [H Hl]].
  unfold Example.fetch_balances, bind. rewrite H.
  unfold of_result. destruct (Example.collect_results rs) as [xs|e] eqn:E.
  - split; [reflexivity|]. intros bs Hb. injection Hb as <-.
    apply collect_results_ok in E. subst rs. rewrite length_map in Hl. exact Hl.
  - split; [reflexivity | discriminate].
Qed.

(** When the request meets a transport failure (the network fails or gives
    no answer), every operation fails with the transport error of reqwest:
    key discovery, the balance query and the transfer; the two create
    operations do too once a secret that fits the key has been encrypted. *)
Theorem ops_transport_failure {R Rq} (de_response : Json.json -> result Json.serde_error R)
  (ser_request : Rq -> Json.json) (pem : string -> option RsaPublicKey) (api_key secret : string)
  (self : CircleClient) (idempotency_key wallet_set_id wallet_id : Z) (name : string)
  (blockchains : list string) (count : Z) (query_params : list (string * string))
  (request : Rq) (w : World) :
  (network w = [] \/ exists rest, network w = TransportFailure :: rest) ->
  fst (new pem api_key secret w) = Failed (AnyReqwest RequestFailed)
  /\ fst (get_wallet_balance de_response self wallet_id query_params w) = Failed (AnyReqwest RequestFailed)
  /\ fst (initiate_transaction ser_request de_response self request w) = Failed (AnyReqwest RequestFailed)
  /\ (forall m, hex_decode (circle_entity_secret self) = Ok m ->
        (length m + 66 <= key_size (public_key self))%nat ->
        fst (create_wallet_set self idempotency_key name w) = Failed (AnyReqwest RequestFailed)
        /\ fst (create_wallet de_response self idempotency_key wallet_set_id blockchains count w)
           = Failed (AnyReqwest RequestFailed)).
Proof.
  intros Hnet.
  assert (Hsend : forall req w', network w' = network w ->
            fst (try AnyReqwest (send req) w') = Failed (AnyReqwest RequestFailed)).
  { intros req w' E. unfold try, send. rewrite E.
    destruct Hnet as [-> | [rest ->]]; reflexivity. }
  assert (Hop : forall {T} (k : Z * ResponseBody -> M AnyhowError T) req w',
            network w' = network w ->
            fst (bind (try AnyReqwest (send req)) k w') = Failed (AnyReqwest RequestFailed)).
  { intros T k req w' E. specialize (Hsend req w' E). unfold bind.
    destruct (try AnyReqwest (send req) w') as [[a|e|p] w1]; cbn in Hsend |- *; congruence. }
  split; [unfold new; cbv zeta; apply Hop; reflexivity|].
  split; [apply Hop; reflexivity|].
  split; [apply Hop; reflexivity|].
  intros m H Hk. split.
  - unfold create_wallet_set. cbv zeta. unfold bind at 1.
    rewrite (encrypt_valid _ _ m w H Hk). apply Hop. reflexivity.
  - unfold create_wallet. cbv zeta. unfold bind at 1.
    rewrite (encrypt_valid _ _ m w H Hk). apply Hop. reflexivity.
Qed.

Lemma ops_transport_failure_witness :
  fst (new pem_none "API_KEY" "74657374" sample_world) = Failed (AnyReqwest RequestFailed)
  /\ fst (get_wallet_balance Json.de_string sample_client 1 [] sample_world) = Failed (AnyReqwest RequestFailed)
  /\ fst (initiate_transaction Json.JString Json.de_string sample_client "t" sample_world)
     = Failed (AnyReqwest RequestFailed)
  /\ fst (create_wallet_set sample_client 1 "a" sample_world) = Failed (AnyReqwest RequestFailed)
  /\ fst (create_wallet Json.de_string sample_client 1 2 ["ETH-SEPOLIA"] 1 sample_world)
     = Failed (AnyReqwest RequestFailed).
Proof.
  assert (Hk : (length [116; 101; 115; 116] + 66 <= key_size (public_key sample_client))%nat)
    by (apply Nat.leb_le; vm_compute; reflexivity).
  destruct (ops_transport_failure Json.de_string Json.JString pem_none "API_KEY" "74657374" sample_client
              1 2 1 "a" ["ETH-SEPOLIA"] 1 [] "t" sample_world (or_introl eq_refl))
    as [H1 [H2 [H3 H4]]].
  split; [exact H1|]. split; [exact H2|]. split; [exact H3|].
  exact (H4 [116; 101; 115; 116] eq_refl Hk).
Defined.

(** ** chrono's RFC 3339 dates *)

Lemma civil_year_step (Y : Z) :
  let F := fun Y => (Y / 400) * 146097 + ((Y - Y / 400 * 400) * 365 + (Y - Y / 400 * 400) / 4
                     - (Y - Y / 400 * 400) / 100) in
  F (Y + 1) = F Y + (if DateTime.is_leap (Y + 1) then 366 else 365).
Proof.
  intros F. subst F. cbv beta. unfold DateTime.is_leap.
  destruct (Z.eqb_spec ((Y + 1) mod 4) 0), (Z.eqb_spec ((Y + 1) mod 100) 0),
    (Z.eqb_spec ((Y + 1) mod 400) 0); cbn [andb orb negb];
  Z.div_mod_to_equations; lia.
Qed.

(** chrono's day count: the day after [y-m-d] is numbered one more, across
    month ends, February of leap and common years, and year ends. *)
Theorem days_from_civil_next_day (y m d : Z) :
  1 <= m <= 12 -> 1 <= d <= DateTime.days_in_month y m ->
  DateTime.days_from_civil y m d + 1
  = if d <? DateTime.days_in_month y m then DateTime.days_from_civil y m (d + 1)
    else if m =? 12 then DateTime.days_from_civil (y + 1) 1 1
    else DateTime.days_from_civil y (m + 1) 1.
Proof.
  intros Hm Hd.
  assert (m = 1 \/ m = 2 \/ m = 3 \/ m = 4 \/ m = 5 \/ m = 6 \/ m = 7 \/ m = 8 \/ m = 9
          \/ m = 10 \/ m = 11 \/ m = 12) as Hcases by lia.
  destruct (Z.ltb_spec d (DateTime.days_in_month y m)) as [Hlt|Hge].
  - unfold DateTime.days_from_civil. cbv zeta. ring.
  - assert (Hd' : d = DateTime.days_in_month y m) by lia. subst d. clear Hge Hd.
    pose proof (civil_year_step (y - 1)) as Hstep. cbv zeta in Hstep.
    replace (y - 1 + 1) with y in Hstep by lia.
    unfold DateTime.days_from_civil, DateTime.days_in_month.
    repeat destruct Hcases as [-> | Hcases]; try subst m; cbn [Z.eqb existsb orb Pos.eqb Z.leb Z.compare Pos.compare Pos.compare_cont]; cbv zeta.
    all: repeat match goal with |- context [?a <=? ?b] => destruct (Z.leb_spec a b); try lia end.
    all: try (destruct (DateTime.is_leap y)); Z.div_mod_to_equations; lia.
Qed.

Lemma list_ascii_of_string_app (a b : string) :
  list_ascii_of_string (a ++ b) = list_ascii_of_string a ++ list_ascii_of_string b.
Proof. induction a as [|c a IH]; cbn; [reflexivity | now rewrite IH]. Qed.

Lemma length_list_ascii_of_string (s : string) : length (list_ascii_of_string s) = String.length s.
Proof. induction s; cbn; congruence. Qed.

Lemma span_digit_chars_app (ds rest : list ascii) (c : ascii) :
  forallb Json.is_digit ds = true -> Json.is_digit c = false ->
  DateTime.span_digit_chars (ds ++ c :: rest) = (ds, c :: rest).
Proof.
  intros Hd Hc. induction ds as [|d ds IH]; cbn.
  - rewrite Hc. reflexivity.
  - cbn in Hd. apply andb_prop in Hd as [Hd1 Hd2]. rewrite Hd1, IH by exact Hd2. reflexivity.
Qed.

Lemma parse_offset_signed (sg h1 h2 m1 m2 : ascii) (hh mm : Z) :
  DateTime.digits_value [h1; h2] = Some hh -> DateTime.digits_value [m1; m2] = Some mm ->
  hh < 24 -> mm < 60 ->
  DateTime.parse_offset ["+"%char; h1; h2; ":"%char; m1; m2] = Some (hh * 3600 + mm * 60)
  /\ DateTime.parse_offset ["-"%char; h1; h2; ":"%char; m1; m2] = Some (- (hh * 3600 + mm * 60)).
Proof.
  intros Hh Hm Hhh Hmm. unfold DateTime.parse_offset.
  change (Json.ceq ":" 58) with true. rewrite Hh, Hm.
  replace ((hh <? 24) && (mm <? 60)) with true by (symmetry; apply andb_true_intro; split; apply Z.ltb_lt; lia).
  change (Json.ceq "+" 43) with true. change (Json.ceq "-" 43) with false.
  change (Json.ceq "-" 45) with true. split; reflexivity.
Qed.

Lemma span_digit_chars_cons_app (d : ascii) (ds rest : list ascii) (c : ascii) :
  forallb Json.is_digit (d :: ds) = true -> Json.is_digit c = false ->
  DateTime.span_digit_chars (d :: ds ++ c :: rest) = (d :: ds, c :: rest).
Proof. apply (span_digit_chars_app (d :: ds)). Qed.

Ltac split_parse :=
  repeat match goal with
  | |- context [if negb ?c then _ else _] => destruct c; cbn [negb]
  | |- context [match DateTime.digits_value ?l with _ => _ end] => destruct (DateTime.digits_value l)
  | |- context [if ?c then Some _ else None] => destruct c; cbv beta iota
  end; cbn [negb option_map DateTime.secs DateTime.nanos];
  repeat split; try reflexivity; f_equal; f_equal; lia.

(** chrono's RFC 3339 parsing into [DateTime<Utc>]: a timestamp written with
    a [+HH:MM] offset is the same wall-clock text read in UTC ([Z]) moved
    back by the offset, with a [-HH:MM] offset moved forward; [z] reads as
    [Z]; the fractional seconds are unaffected. *)
Theorem rfc3339_offset_to_utc (b fr : string) (h1 h2 m1 m2 : ascii) (hh mm : Z) :
  String.length b = 19%nat ->
  (fr = EmptyString \/ exists ds, fr = String "." ds /\ ds <> EmptyString
                                  /\ forallb Json.is_digit (list_ascii_of_string ds) = true) ->
  DateTime.digits_value [h1; h2] = Some hh -> DateTime.digits_value [m1; m2] = Some mm ->
  hh < 24 -> mm < 60 ->
  let shift k := option_map (fun t => DateTime.mkDateTimeUtc (DateTime.secs t - k) (DateTime.nanos t))
                   (DateTime.parse_rfc3339 (b ++ fr ++ "Z")) in
  DateTime.parse_rfc3339 (b ++ fr ++ offset_string "+" h1 h2 m1 m2) = shift (hh * 3600 + mm * 60)
  /\ DateTime.parse_rfc3339 (b ++ fr ++ offset_string "-" h1 h2 m1 m2) = shift (- (hh * 3600 + mm * 60))
  /\ DateTime.parse_rfc3339 (b ++ fr ++ "z") = shift 0.
Proof.
  intros Hb Hfr Hh Hm Hhh Hmm shift. subst shift. cbv beta.
  unfold DateTime.parse_rfc3339. rewrite !list_ascii_of_string_app.
  rewrite <- length_list_ascii_of_string in Hb.
  destruct (list_ascii_of_string b) as [|c1 [|c2 [|c3 [|c4 [|c5 [|c6 [|c7 [|c8 [|c9 [|c10
    [|c11 [|c12 [|c13 [|c14 [|c15 [|c16 [|c17 [|c18 [|c19 [|c20 l]]]]]]]]]]]]]]]]]]]];
    cbn in Hb; try discriminate.
  cbn [app]. clear Hb.
  destruct (parse_offset_signed "+" h1 h2 m1 m2 hh mm Hh Hm Hhh Hmm) as [Hp Hn].
  assert (Hz : DateTime.parse_offset ["Z"%char] = Some 0) by reflexivity.
  assert (Hz' : DateTime.parse_offset ["z"%char] = Some 0) by reflexivity.
  destruct Hfr as [-> | [ds [-> [Hne Hds]]]].
  - cbn [list_ascii_of_string offset_string app].
    change (Json.ceq "+" 46) with false. change (Json.ceq "-" 46) with false.
    change (Json.ceq "Z" 46) with false. change (Json.ceq "z" 46) with false.
    cbv beta iota.
    rewrite Hp, Hn, Hz, Hz'.
    split_parse.
  - destruct ds as [|c ds]; [contradiction|]. clear Hne.
    cbn [list_ascii_of_string offset_string app] in Hds |- *.
    change (Json.ceq "." 46) with true. cbv beta iota.
    rewrite !span_digit_chars_cons_app by (exact Hds || reflexivity).
    cbv beta iota.
    destruct (DateTime.frac_nanos (c :: list_ascii_of_string ds)); cbn [option_map]; cbv beta iota.
    + rewrite Hp, Hn, Hz, Hz'. split_parse.
    + repeat split; split_parse.
Qed.

Lemma days_from_civil_next_day_witness :
  (1 <= 2 <= 12) /\ (1 <= 29 <= DateTime.days_in_month 2024 2)
  /\ DateTime.days_from_civil 2024 2 29 + 1
     = if 29 <? DateTime.days_in_month 2024 2 then DateTime.days_from_civil 2024 2 (29 + 1)
       else if 2 =? 12 then DateTime.days_from_civil (2024 + 1) 1 1
       else DateTime.days_from_civil 2024 (2 + 1) 1.
Proof.
  assert (H1 : 1 <= 2 <= 12) by lia.
  assert (H2 : 1 <= 29 <= DateTime.days_in_month 2024 2) by (vm_compute; split; discriminate).
  split; [exact H1|]. split; [exact H2|].
  exact (days_from_civil_next_day 2024 2 29 H1 H2).
Defined.

Lemma rfc3339_offset_to_utc_witness :
  let shift k := option_map (fun t => DateTime.mkDateTimeUtc (DateTime.secs t - k) (DateTime.nanos t))
                   (DateTime.parse_rfc3339 ("2023-11-25T14:26:38" ++ ".5" ++ "Z")) in
  DateTime.parse_rfc3339 ("2023-11-25T14:26:38" ++ ".5" ++ offset_string "+" "0" "1" "3" "0")
    = shift (1 * 3600 + 30 * 60)
  /\ DateTime.parse_rfc3339 ("2023-11-25T14:26:38" ++ ".5" ++ offset_string "-" "0" "1" "3" "0")
     = shift (- (1 * 3600 + 30 * 60))
  /\ DateTime.parse_rfc3339 ("2023-11-25T14:26:38" ++ ".5" ++ "z") = shift 0.
Proof.
  assert (Hb : String.length "2023-11-25T14:26:38" = 19%nat) by reflexivity.
  assert (Hfr : ".5" = EmptyString \/ exists ds, ".5" = String "." ds /\ ds <> EmptyString
                  /\ forallb Json.is_digit (list_ascii_of_string ds) = true)
    by (right; exists "5"; split; [reflexivity | split; [discriminate | reflexivity]]).
  assert (Hh : DateTime.digits_value ["0"%char; "1"%char] = Some 1) by reflexivity.
  assert (Hm : DateTime.digits_value ["3"%char; "0"%char] = Some 30) by reflexivity.
  exact (rfc3339_offset_to_utc _ _ _ _ _ _ 1 30 Hb Hfr Hh Hm ltac:(lia) ltac:(lia)).
Defined.
